(** * ReachPoint: contact campaigns, progress tracking and reports

    A shallow embedding of the campaign engine of the ReachPoint app:

    - [data/campaignsData.ts]: record filtering ([applyFilters]) and
      identity derivation ([getStudentId]);
    - [data/campaignProgress.ts]: the progress store kept in AsyncStorage
      ([loadOrInitProgress], [recordOutcome], [recordSurveyResponse],
      [clearMissedOutcomes], [clearSurveyResponse], the CSV exports);
    - [screens/execution.tsx]: the queue navigator ([pickNextId]);
    - [screens/campaigns.tsx]: the summary report ([downloadReport]);
    - [utils/buildCloudRows.ts]: the cloud rows.

    Conventions of the embedding.

    - A JavaScript object used as a dictionary ([contacts], a roster record)
      is a [gmap] with string keys; a missing key reads as [None]
      (JavaScript [undefined]).  Keys are assumed not to name a member of
      [Object.prototype].
    - An optional field ([outcome?], [logs?], ...) is an [option].
    - Timestamps are integers (milliseconds since the epoch); [Date.now()]
      is an explicit argument [now] of the operations that read the clock.
    - Counters are natural numbers.
    - AsyncStorage is a finite map from storage keys to the snapshot that
      [JSON.parse] returns for the stored text.
    - An [async] function that throws returns [Err]; the storage is left
      as it was.
    - Built-ins of the JavaScript runtime that the code calls but does not
      define ([parseFloat], [toLowerCase], [trim], [toISOString], the
      rendering of a number by [String]) are the fields of [JsRuntime]. *)

From Stdlib Require Import ZArith String Ascii List Bool Lia.
From Stdlib Require Import DecimalString.
From Stdlib Require DecimalNat DecimalFacts.
From stdpp Require Import gmap strings list fin_maps option.

Open Scope string_scope.
Open Scope list_scope.

(** ** Data model ([data/campaignProgress.ts], lines 12-48) *)

Inductive CallOutcome := answered | no_answer.

#[global] Instance CallOutcome_eq_dec : EqDecision CallOutcome.
Proof. solve_decision. Defined.

Record CallLogEntry := mkCallLogEntry {
  log_at : Z;
  log_outcome : CallOutcome
}.

Record SurveyLogEntry := mkSurveyLogEntry {
  slog_at : Z;
  slog_answer : string
}.

Record ContactProgress := mkContactProgress {
  contactId : string;
  outcome : option CallOutcome;
  attempts : nat;
  lastCalledAt : option Z;
  logs : option (list CallLogEntry);
  surveyAnswer : option string;
  surveyLogs : option (list SurveyLogEntry)
}.

Record Totals := mkTotals {
  total : nat;
  made : nat;
  answeredCount : nat;
  missedCount : nat
}.

Record CampaignProgress := mkCampaignProgress {
  campaignId : string;
  totals : Totals;
  contacts : gmap string ContactProgress;
  completed : bool
}.

(** AsyncStorage, restricted to the progress slots. *)
Abbreviation Storage := (gmap string CampaignProgress).

Inductive Error := NotInitialized.

Inductive result (A : Type) :=
| Ok (a : A)
| Err (e : Error).
Arguments Ok {A} a.
Arguments Err {A} e.

Definition KEY_PREFIX : string := "connects.progress.v1:".

Definition storageKey (campaignId : string) : string :=
  KEY_PREFIX +:+ campaignId.

(** The object literal [{ contactId: id, attempts: 0, logs: [], surveyLogs: [] }]. *)
Definition zeroContact (id : string) : ContactProgress :=
  {| contactId := id; outcome := None; attempts := 0; lastCalledAt := None;
     logs := Some []; surveyAnswer := None; surveyLogs := Some [] |}.

(** ** Init / load / save *)

(** [c.logs = c.logs ?? []; c.surveyLogs = c.surveyLogs ?? []] (lines 71-72). *)
Definition ensureLogs (c : ContactProgress) : ContactProgress :=
  {| contactId := contactId c; outcome := outcome c;
     attempts := attempts c; lastCalledAt := lastCalledAt c;
     logs := Some (default [] (logs c));
     surveyAnswer := surveyAnswer c;
     surveyLogs := Some (default [] (surveyLogs c)) |}.

(** One iteration of the backfill loop of [loadOrInitProgress] (lines 66-74). *)
Definition backfill (parsed : CampaignProgress) (id : string) : CampaignProgress :=
  match contacts parsed !! id with
  | None =>
      {| campaignId := campaignId parsed;
         totals := {| total := total (totals parsed) + 1;
                      made := made (totals parsed);
                      answeredCount := answeredCount (totals parsed);
                      missedCount := missedCount (totals parsed) |};
         contacts := <[id := zeroContact id]> (contacts parsed);
         completed := completed parsed |}
  | Some c =>
      {| campaignId := campaignId parsed;
         totals := totals parsed;
         contacts := <[id := ensureLogs c]> (contacts parsed);
         completed := completed parsed |}
  end.

(** The snapshot built when nothing is stored (lines 79-88). *)
Definition freshProgress (campaignId : string) (contactIds : list string)
  : CampaignProgress :=
  {| campaignId := campaignId;
     totals := {| total := length contactIds; made := 0;
                  answeredCount := 0; missedCount := 0 |};
     contacts :=
       fold_left (fun cs id => <[id := zeroContact id]> cs) contactIds ∅;
     completed := false |}.

Definition loadOrInitProgress (st : Storage) (campaignId : string)
    (contactIds : list string) : Storage * CampaignProgress :=
  match st !! storageKey campaignId with
  | Some raw =>
      let parsed := fold_left backfill contactIds raw in
      (<[storageKey campaignId := parsed]> st, parsed)
  | None =>
      let fresh := freshProgress campaignId contactIds in
      (<[storageKey campaignId := fresh]> st, fresh)
  end.

(** [saveProgress] writes under the key of the snapshot's own [campaignId]. *)
Definition saveProgress (st : Storage) (p : CampaignProgress) : Storage :=
  <[storageKey (campaignId p) := p]> st.

(** ** Calls: outcomes and totals *)

(** The counting loop shared by [recordOutcome] (lines 124-134) and
    [clearMissedOutcomes] (lines 164-174): the triple (made, ans, miss). *)
Definition countStep (_ : string) (c : ContactProgress)
    (acc : nat * nat * nat) : nat * nat * nat :=
  let '(made, ans, miss) := acc in
  match outcome c with
  | Some oc =>
      (made + 1,
       if decide (oc = answered) then ans + 1 else ans,
       if decide (oc = no_answer) then miss + 1 else miss)
  | None => (made, ans, miss)
  end.

Definition countOutcomes (cs : gmap string ContactProgress) : nat * nat * nat :=
  map_fold countStep (0, 0, 0) cs.

(** The updates of [recordOutcome] to the contact (lines 112-119). *)
Definition logCall (now : Z) (oc : CallOutcome) (c : ContactProgress)
  : ContactProgress :=
  {| contactId := contactId c;
     outcome := Some oc;
     attempts := attempts c + 1;
     lastCalledAt := Some now;
     logs := Some (default [] (logs c)
                     ++ [{| log_at := now; log_outcome := oc |}]);
     surveyAnswer := surveyAnswer c;
     surveyLogs := Some (default [] (surveyLogs c)) |}.

(** Body of [recordOutcome] once the snapshot is parsed (lines 109-137). *)
Definition recordOutcomeOn (now : Z) (p : CampaignProgress)
    (contactId : string) (oc : CallOutcome) : CampaignProgress :=
  let c := default (zeroContact contactId) (contacts p !! contactId) in
  let cs := <[contactId := logCall now oc c]> (contacts p) in
  let '(made', ans, miss) := countOutcomes cs in
  {| campaignId := campaignId p;
     totals := {| total := total (totals p); made := made';
                  answeredCount := ans; missedCount := miss |};
     contacts := cs;
     completed := completed p |}.

Definition recordOutcome (now : Z) (st : Storage) (campaignId contactId : string)
    (oc : CallOutcome) : result (Storage * CampaignProgress) :=
  match st !! storageKey campaignId with
  | None => Err NotInitialized
  | Some raw =>
      let p := recordOutcomeOn now raw contactId oc in
      Ok (saveProgress st p, p)
  end.

Definition getSummary (st : Storage) (campaignId : string) : result Totals :=
  match st !! storageKey campaignId with
  | None => Err NotInitialized
  | Some p => Ok (totals p)
  end.

(** First loop of [clearMissedOutcomes] on one contact (lines 159-163). *)
Definition clearMissed (c : ContactProgress) : ContactProgress :=
  if decide (outcome c = Some no_answer) then
    {| contactId := contactId c; outcome := None; attempts := attempts c;
       lastCalledAt := lastCalledAt c; logs := logs c;
       surveyAnswer := surveyAnswer c; surveyLogs := surveyLogs c |}
  else c.

Definition clearMissedOutcomesOn (p : CampaignProgress) : CampaignProgress :=
  let cs := clearMissed <$> contacts p in
  let '(made', ans, miss) := countOutcomes cs in
  {| campaignId := campaignId p;
     totals := {| total := total (totals p); made := made';
                  answeredCount := ans; missedCount := miss |};
     contacts := cs;
     completed := completed p |}.

Definition clearMissedOutcomes (st : Storage) (campaignId : string)
  : result (Storage * CampaignProgress) :=
  match st !! storageKey campaignId with
  | None => Err NotInitialized
  | Some raw =>
      let p := clearMissedOutcomesOn raw in
      Ok (saveProgress st p, p)
  end.

Definition removeProgress (st : Storage) (campaignId : string) : Storage :=
  delete (storageKey campaignId) st.

Definition getProgress (st : Storage) (campaignId : string)
  : option CampaignProgress :=
  st !! storageKey campaignId.

(** ** Surveys *)

(** The updates of [recordSurveyResponse] to the contact (lines 205-207). *)
Definition logSurvey (now : Z) (answer : string) (c : ContactProgress)
  : ContactProgress :=
  {| contactId := contactId c;
     outcome := outcome c;
     attempts := attempts c;
     lastCalledAt := lastCalledAt c;
     logs := logs c;
     surveyAnswer := Some answer;
     surveyLogs := Some (default [] (surveyLogs c)
                           ++ [{| slog_at := now; slog_answer := answer |}]) |}.

Definition recordSurveyResponseOn (now : Z) (p : CampaignProgress)
    (contactId answer : string) : CampaignProgress :=
  let c := default (zeroContact contactId) (contacts p !! contactId) in
  {| campaignId := campaignId p;
     totals := totals p;
     contacts := <[contactId := logSurvey now answer c]> (contacts p);
     completed := completed p |}.

Definition recordSurveyResponse (now : Z) (st : Storage)
    (campaignId contactId answer : string)
  : result (Storage * CampaignProgress) :=
  match st !! storageKey campaignId with
  | None => Err NotInitialized
  | Some raw =>
      let p := recordSurveyResponseOn now raw contactId answer in
      Ok (saveProgress st p, p)
  end.

Definition getSurveyResponse (st : Storage) (campaignId contactId : string)
  : option string :=
  match st !! storageKey campaignId with
  | None => None
  | Some p =>
      match contacts p !! contactId with
      | Some c => surveyAnswer c
      | None => None
      end
  end.

(** The updates of [clearSurveyResponse] to the contact (lines 247-248). *)
Definition dropSurveyAnswer (c : ContactProgress) : ContactProgress :=
  {| contactId := contactId c;
     outcome := outcome c; attempts := attempts c;
     lastCalledAt := lastCalledAt c; logs := logs c;
     surveyAnswer := None;
     surveyLogs := Some (default [] (surveyLogs c)) |}.

Definition clearSurveyResponseOn (p : CampaignProgress) (contactId : string)
  : CampaignProgress :=
  match contacts p !! contactId with
  | Some c =>
      {| campaignId := campaignId p;
         totals := totals p;
         contacts := <[contactId := dropSurveyAnswer c]> (contacts p);
         completed := completed p |}
  | None => p
  end.

Definition clearSurveyResponse (st : Storage) (campaignId contactId : string)
  : result (Storage * CampaignProgress) :=
  match st !! storageKey campaignId with
  | None => Err NotInitialized
  | Some raw =>
      let p := clearSurveyResponseOn raw contactId in
      Ok (saveProgress st p, p)
  end.

(** ** Sequences of store operations *)

Inductive Op :=
| OpLoadOrInit (campaignId : string) (contactIds : list string)
| OpRecordOutcome (now : Z) (campaignId contactId : string) (oc : CallOutcome)
| OpRecordSurveyResponse (now : Z) (campaignId contactId answer : string)
| OpClearMissedOutcomes (campaignId : string)
| OpClearSurveyResponse (campaignId contactId : string)
| OpRemoveProgress (campaignId : string).

Definition exec (st : Storage) (op : Op) : result Storage :=
  match op with
  | OpLoadOrInit cid ids => Ok (loadOrInitProgress st cid ids).1
  | OpRecordOutcome now cid id oc =>
      match recordOutcome now st cid id oc with
      | Ok r => Ok r.1 | Err e => Err e
      end
  | OpRecordSurveyResponse now cid id answer =>
      match recordSurveyResponse now st cid id answer with
      | Ok r => Ok r.1 | Err e => Err e
      end
  | OpClearMissedOutcomes cid =>
      match clearMissedOutcomes st cid with
      | Ok r => Ok r.1 | Err e => Err e
      end
  | OpClearSurveyResponse cid id =>
      match clearSurveyResponse st cid id with
      | Ok r => Ok r.1 | Err e => Err e
      end
  | OpRemoveProgress cid => Ok (removeProgress st cid)
  end.

(** A call that throws leaves the storage untouched. *)
Definition step (st : Storage) (op : Op) : Storage :=
  match exec st op with
  | Ok st' => st'
  | Err _ => st
  end.

Definition run (st : Storage) (ops : list Op) : Storage :=
  fold_left step ops st.

(** The two calls that recompute the call totals, on a parsed snapshot. *)
Inductive OutcomeCall :=
| CallRecordOutcome (now : Z) (contactId : string) (oc : CallOutcome)
| CallClearMissedOutcomes.

Definition applyOutcomeCall (p : CampaignProgress) (c : OutcomeCall)
  : CampaignProgress :=
  match c with
  | CallRecordOutcome now id oc => recordOutcomeOn now p id oc
  | CallClearMissedOutcomes => clearMissedOutcomesOn p
  end.

(** ** Queue navigator ([screens/execution.tsx], lines 94-117) *)

Inductive Strategy := unattempted | missed.

(** The loop of the ['unattempted'] branch. *)
Fixpoint pickUnattempted (p : CampaignProgress) (skipId : option string)
    (queueIds : list string) : option string :=
  match queueIds with
  | [] => None
  | id :: rest =>
      if decide (skipId = Some id) then pickUnattempted p skipId rest
      else
        match contacts p !! id with
        | None => Some id
        | Some c =>
            if decide (attempts c = 0) then Some id
            else pickUnattempted p skipId rest
        end
  end.

(** The loop of the ['missed'] branch. *)
Fixpoint pickMissed (p : CampaignProgress) (skipId : option string)
    (queueIds : list string) : option string :=
  match queueIds with
  | [] => None
  | id :: rest =>
      if decide (skipId = Some id) then pickMissed p skipId rest
      else
        match contacts p !! id with
        | Some c =>
            if decide (outcome c = Some no_answer) then Some id
            else pickMissed p skipId rest
        | None => pickMissed p skipId rest
        end
  end.

Definition pickNextId (queueIds : list string) (p : option CampaignProgress)
    (strategy : Strategy) (skipId : option string) : option string :=
  match p with
  | None => None
  | Some p =>
      match strategy with
      | unattempted => pickUnattempted p skipId queueIds
      | missed => pickMissed p skipId queueIds
      end
  end.

(** ** The JavaScript runtime *)

(** The built-ins the code calls.  [Num] stands for the numbers other than
    NaN, so [parseFloat] answers [None] where JavaScript answers NaN;
    [toISOString t] is [new Date(t).toISOString()]. *)
Class JsRuntime := {
  Num : Type;
  parseFloat : string -> option Num;
  num_gt : Num -> Num -> bool;
  num_ge : Num -> Num -> bool;
  num_lt : Num -> Num -> bool;
  num_le : Num -> Num -> bool;
  numToString : Num -> string;
  toLowerCase : string -> string;
  trim : string -> string;
  toISOString : Z -> string
}.

(** Characters that have no literal inside a string of this file. *)
Definition dquote : ascii := ascii_of_nat 34.
Definition newline : string := String (ascii_of_nat 10) EmptyString.

(** [s.includes(sub)]. *)
Fixpoint includes (s sub : string) : bool :=
  if String.prefix sub s then true
  else match s with
       | EmptyString => false
       | String _ rest => includes rest sub
       end.

(** The [replace] of [csvField]: every double quote is written twice. *)
Fixpoint doubleQuotes (s : string) : string :=
  match s with
  | EmptyString => EmptyString
  | String ch rest =>
      if Ascii.eqb ch dquote then String dquote (String dquote (doubleQuotes rest))
      else String ch (doubleQuotes rest)
  end.

(** The [test] of [csvField]: [s] holds a double quote, a comma or a line
    feed. *)
Fixpoint needsQuotes (s : string) : bool :=
  match s with
  | EmptyString => false
  | String ch rest =>
      Ascii.eqb ch dquote || Ascii.eqb ch "," || Ascii.eqb ch (ascii_of_nat 10)
      || needsQuotes rest
  end.

Definition quoted (s : string) : string :=
  if needsQuotes s
  then String dquote (doubleQuotes s +:+ String dquote EmptyString)
  else s.

(** [String(i)] for an array index. *)
Definition indexToString (i : nat) : string :=
  NilZero.string_of_uint (Nat.to_uint i).

Definition outcomeToString (oc : CallOutcome) : string :=
  match oc with
  | answered => "answered"
  | no_answer => "no_answer"
  end.

(** [t ? new Date(t).toISOString() : ''] for [t : number | null]. *)
Definition isoOrEmpty `{JsRuntime} (t : option Z) : string :=
  match t with
  | Some t => if decide (t = 0%Z) then EmptyString else toISOString t
  | None => EmptyString
  end.

(** ** Records, filters and identity ([data/campaignsData.ts]) *)

Inductive Operator := OpEq | OpLike | OpGt | OpGe | OpLt | OpLe.

Record FilterCondition := mkFilterCondition {
  field : string;
  op : Operator;
  value : string
}.

(** The fields of [Campaign] that the engine reads ([reminders] and
    [survey] are not read by the code below). *)
Record Campaign := mkCampaign {
  camp_id : string;
  camp_name : string;
  createdAt : Z;
  filters : list FilterCondition;
  studentIds : list string
}.

Section CampaignsData.
Context `{rt : JsRuntime}.

(** A scalar cell of a roster record. *)
Inductive JsValue :=
| JNull
| JString (s : string)
| JNumber (x : Num)
| JBool (b : bool).

(** [String(v)]. *)
Definition jsString (v : JsValue) : string :=
  match v with
  | JNull => "null"
  | JString s => s
  | JNumber x => numToString x
  | JBool true => "true"
  | JBool false => "false"
  end.

(** [raw === undefined || raw === null ? '' : String(raw)], which is also
    [String(raw ?? '')]. *)
Definition cellText (row : gmap string JsValue) (f : string) : string :=
  match row !! f with
  | None | Some JNull => EmptyString
  | Some v => jsString v
  end.

Definition getStudentId (s : gmap string JsValue) (fallbackIndex : nat) : string :=
  match s !! "id" with
  | None | Some JNull => indexToString fallbackIndex
  | Some raw => jsString raw
  end.

Definition isNumericOp (o : Operator) : bool :=
  match o with
  | OpGt | OpGe | OpLt | OpLe => true
  | OpEq | OpLike => false
  end.

(** The callback given to [filters.every] (lines 164-182). *)
Definition matchesCondition (row : gmap string JsValue) (f : FilterCondition) : bool :=
  let cell := cellText row (field f) in
  let val := value f in
  if isNumericOp (op f) then
    match parseFloat cell, parseFloat val with
    | Some a, Some b =>
        match op f with
        | OpGt => num_gt a b
        | OpGe => num_ge a b
        | OpLt => num_lt a b
        | OpLe => num_le a b
        | _ => false
        end
    | _, _ => false
    end
  else
    match op f with
    | OpEq => bool_decide (toLowerCase cell = toLowerCase val)
    | OpLike => includes (toLowerCase cell) (toLowerCase val)
    | _ => false
    end.

Definition applyFilters (data : list (gmap string JsValue))
    (filters : list FilterCondition) : list (gmap string JsValue) :=
  if decide (length filters = 0) then data
  else List.filter (fun row => forallb (matchesCondition row) filters) data.

End CampaignsData.

Abbreviation Student := (gmap string JsValue).

(** ** CSV utilities of the progress store ([data/campaignProgress.ts]) *)

Definition csvField (v : option string) : string :=
  match v with
  | None => EmptyString
  | Some s => quoted s
  end.

(** Lines 264-271: the loop runs from the last entry to the first, and falls
    back to the last entry when no entry carries [answer]. *)
Definition lastTimestampForAnswer (cp : ContactProgress) (answer : string)
  : option Z :=
  match surveyLogs cp with
  | None | Some [] => None
  | Some l =>
      match List.find (fun e => bool_decide (slog_answer e = answer)) (rev l) with
      | Some entry => Some (slog_at entry)
      | None => slog_at <$> list.last l
      end
  end.

Section ProgressExports.
Context `{rt : JsRuntime}.

(** One iteration of the loop of [exportSurveyCSV] (lines 280-285):
    the row pushed, or [None] on [continue]. *)
Definition surveyRow (entry : string * ContactProgress) : option string :=
  let '(contactId, cp) := entry in
  match surveyAnswer cp with
  | None => None
  | Some a =>
      if decide (a = EmptyString) then None
      else
        let iso := isoOrEmpty (lastTimestampForAnswer cp a) in
        Some (String.concat ","
                [csvField (Some contactId); csvField (Some a); csvField (Some iso)])
  end.

(** [Object.entries] is read as [map_to_list]: the rows of a stored
    snapshot follow the enumeration order of the map, where the source
    follows the order in which the contacts were inserted.  The order of
    the rows is therefore not modelled; the statements below use the
    branch without a stored snapshot only. *)
Definition exportSurveyCSV (st : Storage) (campaignId : string) : string :=
  match st !! storageKey campaignId with
  | None => "contactId,answer,timestamp" +:+ newline
  | Some p =>
      String.concat newline
        (["contactId,answer,timestamp"]
           ++ omap surveyRow (map_to_list (contacts p))
           ++ [EmptyString])
  end.

(** The rows of one contact in [exportCallOutcomesCSV] (lines 298-302). *)
Definition outcomeRows (entry : string * ContactProgress) : list string :=
  let '(contactId, cp) := entry in
  List.map
    (fun e =>
       let iso := isoOrEmpty (Some (log_at e)) in
       String.concat ","
         [csvField (Some contactId);
          csvField (Some (outcomeToString (log_outcome e)));
          csvField (Some iso)])
    (default [] (logs cp)).

(** The order of the contacts is read as for [exportSurveyCSV]. *)
Definition exportCallOutcomesCSV (st : Storage) (campaignId : string) : string :=
  match st !! storageKey campaignId with
  | None => "contactId,outcome,timestamp" +:+ newline
  | Some p =>
      String.concat newline
        (["contactId,outcome,timestamp"]
           ++ List.concat (List.map outcomeRows (map_to_list (contacts p)))
           ++ [EmptyString])
  end.

End ProgressExports.

(** ** Summary report ([screens/campaigns.tsx], lines 91-191) *)

Module CampaignsScreen.
Section Report.
Context `{rt : JsRuntime}.

(** [csvEscape] is applied to strings only. *)
Definition csvEscape (val : string) : string := quoted val.

Definition buildCSV (headers : list string) (rows : list (gmap string string))
  : string :=
  let head := String.concat "," (List.map csvEscape headers) in
  let body :=
    String.concat newline
      (List.map
         (fun r =>
            String.concat ","
              (List.map (fun h => csvEscape (default EmptyString (r !! h))) headers))
         rows) in
  head +:+ newline +:+ body.

(** One candidate built from two fields:
    [(String(a ?? '').trim() + ' ' + String(b ?? '').trim()).trim()]. *)
Definition namePair (stu : Student) (a b : string) : string :=
  trim (trim (cellText stu a) +:+ " " +:+ trim (cellText stu b)).

Definition deriveFullName (stu : Student) : string :=
  let candidates :=
    List.filter (fun s => negb (bool_decide (s = EmptyString)))
      [ namePair stu "first_name" "last_name";
        namePair stu "FirstName" "LastName";
        namePair stu "First Name" "Last Name";
        trim (cellText stu "name");
        trim (cellText stu "full_name") ] in
  default EmptyString (head candidates).

(** Lines 116-126; [cp] and [answer] may be undefined. *)
Definition lastTimestampForAnswer (cp : option ContactProgress)
    (answer : option string) : option Z :=
  match cp, answer with
  | Some c, Some a =>
      match surveyLogs c with
      | None | Some [] => None
      | Some l =>
          if decide (a = EmptyString) then None
          else
            match List.find (fun e => bool_decide (slog_answer e = a)) (rev l) with
            | Some entry => Some (slog_at entry)
            | None => None
            end
      end
  | _, _ => None
  end.

Definition headers : list string :=
  [ "Full Name"; "Outcome"; "Response"; "Timestamp";
    "Student ID"; "Campaign ID"; "Campaign Name" ].

(** Lines 164-167 of [downloadReport]. *)
Definition timestampCell (cp : option ContactProgress) : string :=
  let tCall := default 0%Z (cp ≫= lastCalledAt) in
  let tResp := default 0%Z (lastTimestampForAnswer cp (cp ≫= surveyAnswer)) in
  let t := Z.max tCall tResp in
  isoOrEmpty (Some t).

(** The lookup table of line 139: a later student overwrites an earlier
    one with the same id. *)
Definition idToStudent (filtered : list Student) : gmap string Student :=
  fold_left (fun m '(i, s) => <[getStudentId s i := s]> m)
    (imap pair filtered) ∅.

(** The callback of [filtered.forEach] (lines 155-178). *)
Definition reportRow (c : Campaign) (prog : option CampaignProgress)
    (table : gmap string Student) (idx : nat) (student : Student)
  : gmap string string :=
  let sid := getStudentId student idx in
  let st := default ∅ (table !! sid) in
  let fullName := deriveFullName st in
  let cp := prog ≫= (fun p => contacts p !! sid) in
  let outcome := default EmptyString (outcomeToString <$> (cp ≫= outcome)) in
  let response := default EmptyString (cp ≫= surveyAnswer) in
  let iso := timestampCell cp in
  list_to_map
    [ ("Full Name", fullName);
      ("Outcome", outcome);
      ("Response", response);
      ("Timestamp", iso);
      ("Student ID", sid);
      ("Campaign ID", camp_id c);
      ("Campaign Name", camp_name c) ].

Definition reportRows (allStudents : list Student)
    (prog : option CampaignProgress) (c : Campaign) : list (gmap string string) :=
  let filtered := applyFilters allStudents (filters c) in
  imap (reportRow c prog (idToStudent filtered)) filtered.

(** The text handed to [exportCsvSmart] by [downloadReport]. *)
Definition downloadReport (allStudents : list Student) (st : Storage)
    (c : Campaign) : string :=
  buildCSV headers (reportRows allStudents (getProgress st (camp_id c)) c).

End Report.
End CampaignsScreen.

(** ** Cloud rows ([utils/buildCloudRows.ts]) *)

Record CloudRow := mkCloudRow {
  full_name : string;
  cloud_outcome : string;
  response : string;
  timestamp : string;
  student_id : string;
  campaign_id : string;
  campaign_name : string
}.

Definition lastSurveyTimestamp (cp : option ContactProgress) : option Z :=
  let logs := default [] (cp ≫= surveyLogs) in
  slog_at <$> list.last logs.

Section BuildCloudRows.
Context `{rt : JsRuntime}.

(** Lines 49-51. *)
Definition cloudTimestamp (cp : option ContactProgress) : string :=
  let surveyAt := lastSurveyTimestamp cp in
  let ts :=
    match surveyAt with
    | Some t => Some t
    | None => cp ≫= lastCalledAt
    end in
  isoOrEmpty ts.

(** The callback of [filtered.forEach] (lines 38-62). *)
Definition cloudRow (c : Campaign) (progress : option CampaignProgress)
    (idx : nat) (student : Student) : CloudRow :=
  let sid := getStudentId student idx in
  let cp := progress ≫= (fun p => contacts p !! sid) in
  let fullName :=
    trim (trim (cellText student "first_name") +:+ " "
          +:+ trim (cellText student "last_name")) in
  {| full_name := fullName;
     cloud_outcome := default EmptyString (outcomeToString <$> (cp ≫= outcome));
     response := default EmptyString (cp ≫= surveyAnswer);
     timestamp := cloudTimestamp cp;
     student_id := sid;
     campaign_id := camp_id c;
     campaign_name := camp_name c |}.

Definition buildCloudRowsForCampaign (students : list Student) (st : Storage)
    (c : Campaign) : list CloudRow :=
  let filtered := applyFilters students (filters c) in
  let progress := getProgress st (camp_id c) in
  imap (cloudRow c progress) filtered.

End BuildCloudRows.

(** ** Properties of snapshots *)

(** Number of contacts that satisfy [P]. *)
Definition countWhere (P : ContactProgress -> Prop) `{!forall c, Decision (P c)}
    (cs : gmap string ContactProgress) : nat :=
  size (filter (fun kc : string * ContactProgress => P kc.2) cs).

(** The call totals agree with the contacts. *)
Definition totals_ok (p : CampaignProgress) : Prop :=
  made (totals p) = countWhere (fun c => is_Some (outcome c)) (contacts p)
  /\ answeredCount (totals p)
     = countWhere (fun c => outcome c = Some answered) (contacts p)
  /\ missedCount (totals p)
     = countWhere (fun c => outcome c = Some no_answer) (contacts p)
  /\ answeredCount (totals p) + missedCount (totals p) = made (totals p).

(** [totals.total] is the number of entries of [contacts]. *)
Definition total_ok (p : CampaignProgress) : Prop :=
  total (totals p) = size (contacts p).

Definition lastCall (c : ContactProgress) : option CallLogEntry :=
  logs c ≫= list.last.

Definition lastSurvey (c : ContactProgress) : option SurveyLogEntry :=
  surveyLogs c ≫= list.last.

(** The latest-value fields equal the last entry of the trails. *)
Definition latest_ok (c : ContactProgress) : Prop :=
  outcome c = log_outcome <$> lastCall c
  /\ lastCalledAt c = log_at <$> lastCall c
  /\ surveyAnswer c = slog_answer <$> lastSurvey c.

(** The same, with the two ways the store clears a latest value without
    writing to the trail: [outcome] is unset while the last call log entry
    says [no_answer], [surveyAnswer] is unset while the survey log has an
    entry. *)
Definition latest_or_cleared (c : ContactProgress) : Prop :=
  (outcome c = log_outcome <$> lastCall c
   \/ (outcome c = None /\ log_outcome <$> lastCall c = Some no_answer))
  /\ lastCalledAt c = log_at <$> lastCall c
  /\ (surveyAnswer c = slog_answer <$> lastSurvey c
      \/ (surveyAnswer c = None /\ is_Some (lastSurvey c))).

Definition all_contacts (P : ContactProgress -> Prop) (p : CampaignProgress)
  : Prop :=
  map_Forall (fun _ c => P c) (contacts p).

(** [I] holds of every stored snapshot. *)
Definition store_inv (I : CampaignProgress -> Prop) (st : Storage) : Prop :=
  map_Forall (fun _ p => I p) st.

(** The clock readings of a call satisfy [clock_ok]. *)
Definition op_clock_ok (clock_ok : Z -> Prop) (op : Op) : Prop :=
  match op with
  | OpRecordOutcome now _ _ _ | OpRecordSurveyResponse now _ _ _ => clock_ok now
  | _ => True
  end.

(** ** Vocabulary of the statements *)

(** What the ['unattempted'] pass looks for. *)
Definition isUnattempted (p : CampaignProgress) (skipId : option string)
    (id : string) : Prop :=
  skipId <> Some id
  /\ (contacts p !! id = None
      \/ exists c, contacts p !! id = Some c /\ attempts c = 0).

(** What the ['missed'] pass looks for. *)
Definition isMissed (p : CampaignProgress) (skipId : option string)
    (id : string) : Prop :=
  skipId <> Some id
  /\ exists c, contacts p !! id = Some c /\ outcome c = Some no_answer.

Definition wanted (p : CampaignProgress) (strategy : Strategy)
    (skipId : option string) : string -> Prop :=
  match strategy with
  | unattempted => isUnattempted p skipId
  | missed => isMissed p skipId
  end.

(** [r] is the first element of [queue], in order, that satisfies [sel];
    it is none when no element does. *)
Definition first_match (sel : string -> Prop) (queue : list string)
    (r : option string) : Prop :=
  match r with
  | Some id =>
      exists pre post, queue = pre ++ id :: post
                       /\ sel id /\ Forall (fun x => ~ sel x) pre
  | None => Forall (fun x => ~ sel x) queue
  end.

(** Every condition of the filter set matches the record. *)
Definition matchesAll `{JsRuntime} (filters : list FilterCondition) (row : Student) : Prop :=
  Forall (fun f => matchesCondition row f = true) filters.

#[global] Instance matchesAll_dec `{JsRuntime} filters row : Decision (matchesAll filters row).
Proof. unfold matchesAll. apply _. Defined.

(** The contact [id] is present and has both trails. *)
Definition settled (p : CampaignProgress) (id : string) : Prop :=
  exists c, contacts p !! id = Some c /\ ensureLogs c = c.

(** The later of two optional timestamps. *)
Definition laterOf (a b : option Z) : option Z :=
  match a, b with
  | Some x, Some y => Some (Z.max x y)
  | Some x, None => Some x
  | None, Some y => Some y
  | None, None => None
  end.

(** The [at] of the last survey log entry whose answer is the current
    [surveyAnswer] of the contact. *)
Definition answerTime (cp : option ContactProgress) : option Z :=
  c ← cp; a ← surveyAnswer c; l ← surveyLogs c;
  slog_at <$> list.last (filter (fun e => slog_answer e = a) l).

(** The same, where an empty [surveyAnswer] counts as no answer. *)
Definition nonEmptyAnswerTime (cp : option ContactProgress) : option Z :=
  c ← cp; a ← surveyAnswer c;
  if decide (a = EmptyString) then None
  else l ← surveyLogs c;
       slog_at <$> list.last (filter (fun e => slog_answer e = a) l).

(** The timestamps of the contact are positive epoch milliseconds. *)
Definition timesPositive (c : ContactProgress) : Prop :=
  (forall t, lastCalledAt c = Some t -> (0 < t)%Z)
  /\ (forall l e, surveyLogs c = Some l -> e ∈ l -> (0 < slog_at e)%Z).

Definition positive_times (cp : option ContactProgress) : Prop :=
  forall c, cp = Some c -> timesPositive c.

(** ISO-8601 rendering of an optional timestamp, empty when absent. *)
Definition renderTime `{JsRuntime} (t : option Z) : string :=
  match t with
  | Some t => toISOString t
  | None => EmptyString
  end.

(** The timestamp the cloud row is to carry: the last survey log entry
    when there is one, [lastCalledAt] otherwise. *)
Definition surveyFirst (cp : option ContactProgress) : option Z :=
  match default [] (cp ≫= surveyLogs) with
  | [] => cp ≫= lastCalledAt
  | l => slog_at <$> list.last l
  end.

(** ** A reference runtime

    An executable runtime used to run the definitions on examples.  It
    agrees with JavaScript on ASCII text, on integer literals and on the
    timestamps of the years 1970 to 9999. *)

Module RefRuntime.

Definition isDigit (ch : ascii) : bool :=
  (48 <=? nat_of_ascii ch)%nat && (nat_of_ascii ch <=? 57)%nat.

Definition isSpace (ch : ascii) : bool :=
  let n := nat_of_ascii ch in
  (n =? 32)%nat || ((9 <=? n)%nat && (n <=? 13)%nat).

Fixpoint skipSpaces (s : string) : string :=
  match s with
  | String ch rest => if isSpace ch then skipSpaces rest else s
  | EmptyString => EmptyString
  end.

Definition reverse (s : string) : string :=
  string_of_list_ascii (rev (list_ascii_of_string s)).

Definition trim (s : string) : string :=
  reverse (skipSpaces (reverse (skipSpaces s))).

Definition lowerChar (ch : ascii) : ascii :=
  let n := nat_of_ascii ch in
  if (65 <=? n)%nat && (n <=? 90)%nat then ascii_of_nat (n + 32) else ch.

Fixpoint toLowerCase (s : string) : string :=
  match s with
  | String ch rest => String (lowerChar ch) (toLowerCase rest)
  | EmptyString => EmptyString
  end.

(** The digits at the head of [s], read as a decimal numeral. *)
Fixpoint readDigits (s : string) (acc : option Z) : option Z :=
  match s with
  | String ch rest =>
      if isDigit ch
      then readDigits rest
             (Some (10 * default 0 acc + Z.of_nat (nat_of_ascii ch - 48)))%Z
      else acc
  | EmptyString => acc
  end.

Definition parseFloat (s : string) : option Z :=
  match skipSpaces s with
  | String "-" rest => Z.opp <$> readDigits rest None
  | String "+" rest => readDigits rest None
  | s' => readDigits s' None
  end.

Definition numToString (x : Z) : string :=
  NilZero.string_of_int (Z.to_int x).

Definition pad (width : nat) (n : Z) : string :=
  let s := NilZero.string_of_uint (N.to_uint (Z.to_N n)) in
  string_of_list_ascii (repeat "0"%char (width - String.length s)) +:+ s.

(** Days since 1970-01-01 to (year, month, day) of the proleptic
    Gregorian calendar. *)
Definition civilFromDays (days : Z) : Z * Z * Z :=
  let z := (days + 719468)%Z in
  let era := (z / 146097)%Z in
  let doe := (z - era * 146097)%Z in
  let yoe := ((doe - doe / 1460 + doe / 36524 - doe / 146096) / 365)%Z in
  let doy := (doe - (365 * yoe + yoe / 4 - yoe / 100))%Z in
  let mp := ((5 * doy + 2) / 153)%Z in
  let d := (doy - (153 * mp + 2) / 5 + 1)%Z in
  let m := (if mp <? 10 then mp + 3 else mp - 9)%Z in
  let y := (yoe + era * 400 + (if m <=? 2 then 1 else 0))%Z in
  (y, m, d).

Definition toISOString (t : Z) : string :=
  let ms := (t mod 86400000)%Z in
  let '(y, m, d) := civilFromDays (t / 86400000)%Z in
  pad 4 y +:+ "-" +:+ pad 2 m +:+ "-" +:+ pad 2 d +:+ "T"
    +:+ pad 2 (ms / 3600000)%Z +:+ ":" +:+ pad 2 (ms / 60000 mod 60)%Z
    +:+ ":" +:+ pad 2 (ms / 1000 mod 60)%Z
    +:+ "." +:+ pad 3 (ms mod 1000)%Z +:+ "Z".

End RefRuntime.

#[global] Instance refRuntime : JsRuntime := {|
  Num := Z;
  parseFloat := RefRuntime.parseFloat;
  num_gt := Z.gtb;
  num_ge := Z.geb;
  num_lt := Z.ltb;
  num_le := Z.leb;
  numToString := RefRuntime.numToString;
  toLowerCase := RefRuntime.toLowerCase;
  trim := RefRuntime.trim;
  toISOString := RefRuntime.toISOString
|}.

(** ** Example data, run on the reference runtime *)

(** The calls of the examples below, on the campaign [c1]. *)
Definition missedThenCleared : list Op :=
  [OpLoadOrInit "c1" ["a"];
   OpRecordOutcome 1000 "c1" "a" no_answer;
   OpClearMissedOutcomes "c1"].

Definition surveyThenCleared : list Op :=
  [OpLoadOrInit "c1" ["a"];
   OpRecordSurveyResponse 1000 "c1" "a" "Yes";
   OpClearSurveyResponse "c1" "a"].

(** A small roster for the examples, run on the reference runtime. *)
Definition ann : Student :=
  {[ "first_name" := JString "Ann"; "gpa" := JNumber 4%Z; "id" := JString "s1" ]}.
Definition bob : Student :=
  {[ "first_name" := JString "Bob"; "gpa" := JString "n/a" ]}.
Definition cyd : Student :=
  {[ "first_name" := JString "Cyd"; "gpa" := JString "2" ]}.

Definition gpaAbove3 : FilterCondition :=
  {| field := "gpa"; op := OpGt; value := "3" |}.

(** The first names of the records kept by a filter set. *)
Definition keptNames (filters : list FilterCondition) : list string :=
  List.map (fun s => cellText s "first_name")
    (applyFilters [ann; bob; cyd] filters).

(** A campaign over the example roster, and three stores for it. *)
Definition roster : list Student := [ann; bob; cyd].

Definition fall : Campaign :=
  {| camp_id := "c1"; camp_name := "Fall"; createdAt := 1;
     filters := [gpaAbove3]; studentIds := ["s1"] |}.

(** Survey answer at 50, call at 100. *)
Definition surveyThenCall : Storage :=
  run ∅ [OpLoadOrInit "c1" ["s1"];
         OpRecordSurveyResponse 50 "c1" "s1" "Yes";
         OpRecordOutcome 100 "c1" "s1" answered].

(** Survey answer at 500, then a call at 1000. *)
Definition callAfterSurvey : Storage :=
  run ∅ [OpLoadOrInit "c1" ["s1"];
         OpRecordSurveyResponse 500 "c1" "s1" "Yes";
         OpRecordOutcome 1000 "c1" "s1" no_answer].

(** An empty survey answer recorded at 50. *)
Definition emptyAnswer : Storage :=
  run ∅ [OpLoadOrInit "c1" ["s1"];
         OpRecordSurveyResponse 50 "c1" "s1" EmptyString].


Definition contactOf (st : Storage) (sid : string) : option ContactProgress :=
  getProgress st "c1" ≫= fun p => contacts p !! sid.

(** The store operation of a call on the campaign [cid]. *)
Definition outcomeOp (cid : string) (c : OutcomeCall) : Op :=
  match c with
  | CallRecordOutcome now id oc => OpRecordOutcome now cid id oc
  | CallClearMissedOutcomes => OpClearMissedOutcomes cid
  end.

(** ** Further vocabulary: the store *)

(** Every snapshot sits under the storage key of its own [campaignId]. *)
Definition keys_agree (st : Storage) : Prop :=
  map_Forall (fun k p => k = storageKey (campaignId p)) st.

(** The campaign that an operation addresses. *)
Definition opCampaign (op : Op) : string :=
  match op with
  | OpLoadOrInit cid _ => cid
  | OpRecordOutcome _ cid _ _ => cid
  | OpRecordSurveyResponse _ cid _ _ => cid
  | OpClearMissedOutcomes cid => cid
  | OpClearSurveyResponse cid _ => cid
  | OpRemoveProgress cid => cid
  end.

(** The contact [c'] continues the history of [c]: both trails of [c] are
    the beginning of the trails of [c'], and the attempts did not go down. *)
Definition continues (c c' : ContactProgress) : Prop :=
  default [] (logs c) `prefix_of` default [] (logs c')
  /\ default [] (surveyLogs c) `prefix_of` default [] (surveyLogs c')
  /\ attempts c <= attempts c'.

(** Every contact of [p] is in [p'], with its history continued. *)
Definition history_kept (p p' : CampaignProgress) : Prop :=
  forall id c, contacts p !! id = Some c ->
    exists c', contacts p' !! id = Some c' /\ continues c c'.

(** The attempts of a contact are the entries of its call log. *)
Definition attempts_logged (c : ContactProgress) : Prop :=
  attempts c = length (default [] (logs c)).

(** What a call does to the storage: nothing, the removal of the slot of
    its campaign, or the writing of a snapshot [p'] built from the stored
    one by [f]. *)
Inductive step_shape (st : Storage) (op : Op) : Prop :=
| shape_same : step st op = st -> step_shape st op
| shape_removed :
    op = OpRemoveProgress (opCampaign op) ->
    step st op = delete (storageKey (opCampaign op)) st -> step_shape st op
| shape_fresh ids :
    st !! storageKey (opCampaign op) = None ->
    step st op
    = <[storageKey (opCampaign op) := freshProgress (opCampaign op) ids]> st ->
    step_shape st op
| shape_written raw p' :
    st !! storageKey (opCampaign op) = Some raw ->
    campaignId p' = campaignId raw ->
    history_kept raw p' ->
    (step st op = <[storageKey (campaignId raw) := p']> st
     \/ step st op = <[storageKey (opCampaign op) := p']> st) ->
    step_shape st op.

(** The bookkeeping of a contact: the attempts are the entries of the call
    log; an outcome or a time of last call is there only after a call; a
    survey answer is there only after a survey log entry. *)
Definition bookkeeping (c : ContactProgress) : Prop :=
  attempts_logged c
  /\ (is_Some (outcome c) -> 0 < attempts c)
  /\ (is_Some (lastCalledAt c) <-> 0 < attempts c)
  /\ (is_Some (surveyAnswer c) -> default [] (surveyLogs c) <> []).

(** Two contacts are equal up to the writing of absent trails as empty
    trails. *)
Definition same_contact (c c' : ContactProgress) : Prop :=
  c' = c \/ c' = ensureLogs c.

(** ** The run of a campaign ([screens/execution.tsx], lines 64-166)

    The state of the screen that the handlers read and write; a handler
    reads the state of the latest render. *)

Inductive Mode := ModeIdle | ModeRunning | ModeSummary | ModeMissed.

Record RunState := mkRunState {
  run_progress : option CampaignProgress;
  run_mode : Mode;
  currentId : option string;
  passStrategy : Strategy
}.

(** The test [if (id)] on [id : string | undefined]. *)
Definition truthy (id : option string) : bool :=
  match id with
  | Some s => negb (bool_decide (s = EmptyString))
  | None => false
  end.

(** [advance] (lines 119-127). *)
Definition advance (cid : string) (queueIds : list string)
    (st : Storage) (rs : RunState) (strategy : Strategy)
    (skipId : option string) : Storage * RunState :=
  let '(st', fresh) := loadOrInitProgress st cid queueIds in
  let nextId := pickNextId queueIds (Some fresh) strategy skipId in
  (st', {| run_progress := Some fresh;
           run_mode := if truthy nextId then run_mode rs else ModeSummary;
           currentId := nextId;
           passStrategy := passStrategy rs |}).

(** [beginCalls] (lines 129-133). *)
Definition beginCalls (cid : string) (queueIds : list string)
    (st : Storage) (rs : RunState) : Storage * RunState :=
  advance cid queueIds st
    {| run_progress := run_progress rs; run_mode := ModeRunning;
       currentId := currentId rs; passStrategy := unattempted |}
    unattempted None.

(** [beginMissed] (lines 135-139). *)
Definition beginMissed (cid : string) (queueIds : list string)
    (st : Storage) (rs : RunState) : Storage * RunState :=
  advance cid queueIds st
    {| run_progress := run_progress rs; run_mode := ModeMissed;
       currentId := currentId rs; passStrategy := missed |}
    missed None.

(** [onOutcome] (lines 157-166); when [recordOutcome] throws, the handler
    stops there. *)
Definition onOutcome (cid : string) (queueIds : list string) (now : Z)
    (st : Storage) (rs : RunState) (oc : CallOutcome) : Storage * RunState :=
  if truthy (currentId rs) then
    match currentId rs with
    | Some id =>
        match recordOutcome now st cid id oc with
        | Ok (st1, p) =>
            let rs1 := {| run_progress := Some p; run_mode := run_mode rs;
                          currentId := currentId rs;
                          passStrategy := passStrategy rs |} in
            let skip := match passStrategy rs with
                        | missed => Some id
                        | unattempted => None
                        end in
            advance cid queueIds st1 rs1 (passStrategy rs) skip
        | Err _ => (st, rs)
        end
    | None => (st, rs)
    end
  else (st, rs).

(** The outcomes that the operator enters, each with the clock reading of
    its call. *)
Definition onOutcomes (cid : string) (queueIds : list string)
    (s : Storage * RunState) (outcomes : list (Z * CallOutcome))
  : Storage * RunState :=
  fold_left (fun s no => onOutcome cid queueIds no.1 s.1 s.2 no.2) outcomes s.

(** [allDone] of the summary block (line 330). *)
Definition allDone (t : Totals) : bool :=
  bool_decide (missedCount t = 0) && bool_decide (made t = total t).

(** The contact of [id] is absent or has no attempt. *)
Definition unattemptedIn (p : CampaignProgress) (id : string) : bool :=
  match contacts p !! id with
  | None => true
  | Some c => bool_decide (attempts c = 0)
  end.

(** The contact of [id] has outcome [no_answer]. *)
Definition missedIn (p : CampaignProgress) (id : string) : bool :=
  match contacts p !! id with
  | None => false
  | Some c => bool_decide (outcome c = Some no_answer)
  end.

(** What a pass still has to present. *)
Definition pendingIn (strategy : Strategy) (p : CampaignProgress)
    (id : string) : bool :=
  match strategy with
  | unattempted => unattemptedIn p id
  | missed => missedIn p id
  end.

(** The outcomes that take a contact out of a pass: every outcome in the
    unattempted pass, [answered] in the missed pass. *)
Definition settles (strategy : Strategy) (oc : CallOutcome) : Prop :=
  match strategy with
  | unattempted => True
  | missed => oc = answered
  end.

(** The state of a pass on the campaign [cid]: the snapshot [p] is the
    stored one, and either the summary is shown with no current contact
    (and, when no id of the queue is the empty string, nothing of the queue
    is pending), or the current contact is a pending id of the queue. *)
Definition pass_state (strategy : Strategy) (cid : string)
    (queueIds : list string) (s : Storage * RunState) (p : CampaignProgress)
  : Prop :=
  keys_agree s.1
  /\ s.1 !! storageKey cid = Some p
  /\ passStrategy s.2 = strategy
  /\ ((run_mode s.2 = ModeSummary /\ truthy (currentId s.2) = false
       /\ (EmptyString ∉ queueIds ->
           forall id, id ∈ queueIds -> pendingIn strategy p id = false))
      \/ (exists id, currentId s.2 = Some id /\ id <> EmptyString
                     /\ id ∈ queueIds /\ pendingIn strategy p id = true)).

(** ** Further vocabulary: filters and ids *)

(** The queue of a roster: [filtered.map((s, i) => getStudentId(s, i))]
    ([screens/execution.tsx], lines 49-52). *)
Definition queueIdsOf `{JsRuntime} (filtered : list Student) : list string :=
  imap (fun i s => getStudentId s i) filtered.

(** The record carries no [id]. *)
Definition lacksId `{JsRuntime} (s : Student) : Prop :=
  s !! "id" = None \/ s !! "id" = Some JNull.

(** ** The campaign list ([data/campaignsData.ts], lines 12-38 and 64-158) *)

Record Reminder := mkReminder {
  reminder_contactId : string;
  dates : list string
}.

Record SurveyInput := mkSurveyInput {
  input_question : string;
  input_options : list string
}.

Record Survey := mkSurvey {
  question : string;
  options : list string;
  survey_createdAt : Z;
  updatedAt : Z;
  active : option bool
}.

(** A campaign as it is persisted: the fields that the engine reads, the
    reminders and the optional survey. *)
Record CampaignEntry := mkCampaignEntry {
  core : Campaign;
  reminders : list Reminder;
  survey : option Survey
}.

Definition entryId (c : CampaignEntry) : string := camp_id (core c).

(** The slot of AsyncStorage under [STORAGE_KEY]: nothing, a text that
    [JSON.parse] rejects or that is not an array, or a list of campaigns. *)
Inductive ListSlot :=
| SlotNothing
| SlotUnreadable
| SlotList (all : list CampaignEntry).

Definition listCampaigns (slot : ListSlot) : list CampaignEntry :=
  match slot with
  | SlotList all => all
  | SlotNothing | SlotUnreadable => []
  end.

(** [all.findIndex(c => c.id === id)]: the first position, or none for -1. *)
Definition findIndexById (all : list CampaignEntry) (id : string)
  : option (nat * CampaignEntry) :=
  list_find (fun c => entryId c = id) all.

Definition saveCampaign (slot : ListSlot) (campaign : CampaignEntry) : ListSlot :=
  let existing := listCampaigns slot in
  match findIndexById existing (entryId campaign) with
  | Some (idx, _) => SlotList (<[idx := campaign]> existing)
  | None => SlotList (campaign :: existing)
  end.

Definition clearAllCampaigns (slot : ListSlot) : ListSlot := SlotNothing.

Definition deleteCampaign (slot : ListSlot) (id : string) : ListSlot :=
  SlotList (List.filter (fun c => negb (bool_decide (entryId c = id)))
              (listCampaigns slot)).

(** [all.find(c => c.id === campaignId)]. *)
Definition findCampaign (slot : ListSlot) (campaignId : string)
  : option CampaignEntry :=
  snd <$> findIndexById (listCampaigns slot) campaignId.

Definition getCampaignSurvey (slot : ListSlot) (campaignId : string)
  : option Survey :=
  findCampaign slot campaignId ≫= survey.

Definition nextSurvey `{JsRuntime} (now : Z) (prev : CampaignEntry)
    (input : SurveyInput) : Survey :=
  {| question := trim (input_question input);
     options := List.filter (fun o => negb (bool_decide (o = EmptyString)))
                  (List.map trim (input_options input));
     survey_createdAt := default now (survey_createdAt <$> survey prev);
     updatedAt := now;
     active := Some (default true (survey prev ≫= active)) |}.

(** The new slot and the value returned ([None] for [null]). *)
Definition setCampaignSurvey `{JsRuntime} (now : Z) (slot : ListSlot)
    (campaignId : string) (input : SurveyInput)
  : ListSlot * option CampaignEntry :=
  let all := listCampaigns slot in
  match findIndexById all campaignId with
  | None => (slot, None)
  | Some (idx, prev) =>
      let updated :=
        {| core := core prev; reminders := reminders prev;
           survey := Some (nextSurvey now prev input) |} in
      (SlotList (<[idx := updated]> all), Some updated)
  end.

Definition clearCampaignSurvey (slot : ListSlot) (campaignId : string)
  : ListSlot * option CampaignEntry :=
  let all := listCampaigns slot in
  match findIndexById all campaignId with
  | None => (slot, None)
  | Some (idx, prev) =>
      match survey prev with
      | None => (slot, Some prev)
      | Some _ =>
          let updated :=
            {| core := core prev; reminders := reminders prev; survey := None |} in
          (SlotList (<[idx := updated]> all), Some updated)
      end
  end.

Definition listCampaignSurveys (slot : ListSlot)
  : list (string * string * Survey) :=
  omap (fun c => (fun s => (entryId c, camp_name (core c), s)) <$> survey c)
    (listCampaigns slot).

(** [performDelete] of [screens/campaigns.tsx] (lines 83-88), on the two
    stores. *)
Definition performDelete (slot : ListSlot) (st : Storage) (id : string)
  : ListSlot * Storage :=
  (deleteCampaign slot id, removeProgress st id).

(** The list with its first element that satisfies [P] replaced by [y]. *)
Fixpoint replaceFirst {A} (P : A -> Prop) `{!forall x, Decision (P x)}
    (y : A) (l : list A) : list A :=
  match l with
  | [] => []
  | x :: rest =>
      if decide (P x) then y :: rest else x :: replaceFirst P y rest
  end.

(** ** Further vocabulary: CSV cells *)

(** Reading a cell from left to right, [inq] telling whether an odd number
    of double quotes has been read: the state at the end, or [None] when a
    comma or a line feed is met outside double quotes. *)
Fixpoint scanCell (inq : bool) (s : string) : option bool :=
  match s with
  | EmptyString => Some inq
  | String ch rest =>
      if Ascii.eqb ch dquote then scanCell (negb inq) rest
      else if (Ascii.eqb ch "," || Ascii.eqb ch (ascii_of_nat 10)) && negb inq
           then None
           else scanCell inq rest
  end.

(** ** Paths of the exported files ([utils/exportReport.ts], lines 20-25) *)

(** [base.endsWith('/')]. *)
Fixpoint endsWithSlash (base : string) : bool :=
  match base with
  | EmptyString => false
  | String ch EmptyString => Ascii.eqb ch "/"
  | String _ rest => endsWithSlash rest
  end.

Definition joinPath (base fileName : string) : string :=
  if decide (base = EmptyString) then fileName
  else
    let slash := if endsWithSlash base then EmptyString else "/" in
    base +:+ slash +:+ fileName.

(** ** Readers of the survey answers ([data/campaignProgress.ts], lines 224-235) *)

Definition getAllSurveyResponses (st : Storage) (campaignId : string)
  : gmap string string :=
  match st !! storageKey campaignId with
  | None => ∅
  | Some p =>
      omap (fun cp =>
              match surveyAnswer cp with
              | Some a => if decide (a = EmptyString) then None else Some a
              | None => None
              end)
        (contacts p)
  end.

(** ** Editing a campaign ([screens/createCampaigns.tsx], lines 213-250)

    The handlers of the question step and of the calendar.  One edit is
    made per render, so the [options] that [addOption] reads are the
    options its update is applied to. *)

Definition DEFAULT_OPTIONS : list string := ["Yes"; "No"; "Maybe"].

Definition addOption `{JsRuntime} (options : list string) (newOption : string)
  : list string :=
  let clean := trim newOption in
  if decide (clean = EmptyString) then options
  else if decide (clean ∈ options) then options
  else options ++ [clean].

Definition removeOption (options : list string) (label : string) : list string :=
  List.filter (fun o => negb (bool_decide (o = label))) options.

Definition toggleDate (prev : list string) (iso : string) : list string :=
  if decide (iso ∈ prev)
  then List.filter (fun d => negb (bool_decide (d = iso))) prev
  else prev ++ [iso].

(** The edits of the option list. *)
Inductive OptionEdit :=
| EditAdd (newOption : string)
| EditRemove (label : string)
| EditReset.

Definition applyOptionEdit `{JsRuntime} (options : list string) (e : OptionEdit)
  : list string :=
  match e with
  | EditAdd newOption => addOption options newOption
  | EditRemove label => removeOption options label
  | EditReset => DEFAULT_OPTIONS
  end.

(** The options are not empty and not repeated. *)
Definition clean_options (options : list string) : Prop :=
  NoDup options /\ EmptyString ∉ options.

(** * Theorems *)

(** ** The counting loop *)

Section Counting.
Context (P : ContactProgress -> Prop) `{!forall c, Decision (P c)}.

Lemma countWhere_empty : countWhere P ∅ = 0.
Proof. unfold countWhere. by rewrite map_filter_empty, map_size_empty. Qed.

Lemma countWhere_insert_fresh cs i c :
  cs !! i = None ->
  countWhere P (<[i := c]> cs)
  = (if decide (P c) then 1 else 0) + countWhere P cs.
Proof.
  intros Hi. unfold countWhere.
  rewrite map_filter_insert. simpl. destruct (decide (P c)).
  - rewrite map_size_insert_None; [done|].
    apply map_lookup_filter_None. by left.
  - by rewrite delete_id.
Qed.
End Counting.

Lemma countOutcomes_spec cs :
  countOutcomes cs
  = (countWhere (fun c => is_Some (outcome c)) cs,
     countWhere (fun c => outcome c = Some answered) cs,
     countWhere (fun c => outcome c = Some no_answer) cs).
Proof.
  unfold countOutcomes.
  apply (map_fold_weak_ind
           (fun r m =>
              r = (countWhere (fun c => is_Some (outcome c)) m,
                   countWhere (fun c => outcome c = Some answered) m,
                   countWhere (fun c => outcome c = Some no_answer) m))).
  - by rewrite !countWhere_empty.
  - intros i c m r Hi ->.
    rewrite !countWhere_insert_fresh by done.
    unfold countStep. destruct (outcome c) as [[]|] eqn:Hoc; simpl;
      repeat case_decide; try congruence; try (exfalso; eauto; fail);
      try (by exfalso; apply H; eauto);
      f_equal; try f_equal; lia.
Qed.

(** Disjointness of the two outcomes: answered + missed = made. *)
Lemma countWhere_split cs :
  countWhere (fun c => outcome c = Some answered) cs
  + countWhere (fun c => outcome c = Some no_answer) cs
  = countWhere (fun c => is_Some (outcome c)) cs.
Proof.
  induction cs as [|i c m Hi IH] using map_ind.
  - by rewrite !countWhere_empty.
  - rewrite !countWhere_insert_fresh by done.
    destruct (outcome c) as [[]|] eqn:Hoc;
      repeat case_decide; try congruence; try lia;
      exfalso; match goal with H : ~ is_Some _ |- _ => apply H; eauto
                          | H : is_Some None |- _ => by destruct H end.
Qed.

Lemma totals_ok_of_count p cs :
  contacts p = cs ->
  (made (totals p), answeredCount (totals p), missedCount (totals p))
  = countOutcomes cs ->
  totals_ok p.
Proof.
  intros <-. rewrite countOutcomes_spec. intros [= Hm Ha Hmi].
  unfold totals_ok. rewrite Hm, Ha, Hmi. repeat split.
  apply countWhere_split.
Qed.

Lemma recordOutcomeOn_totals_ok now p id oc :
  totals_ok (recordOutcomeOn now p id oc).
Proof.
  unfold recordOutcomeOn.
  destruct (countOutcomes _) as [[m a] mi] eqn:Hc.
  by eapply totals_ok_of_count; [reflexivity|simpl; rewrite Hc].
Qed.

Lemma clearMissedOutcomesOn_totals_ok p :
  totals_ok (clearMissedOutcomesOn p).
Proof.
  unfold clearMissedOutcomesOn.
  destruct (countOutcomes _) as [[m a] mi] eqn:Hc.
  by eapply totals_ok_of_count; [reflexivity|simpl; rewrite Hc].
Qed.

Lemma applyOutcomeCall_totals_ok p c : totals_ok (applyOutcomeCall p c).
Proof.
  destruct c; [apply recordOutcomeOn_totals_ok|apply clearMissedOutcomesOn_totals_ok].
Qed.

(** ** Invariants of the store *)

Lemma contacts_recordOutcomeOn now p id oc :
  contacts (recordOutcomeOn now p id oc)
  = <[id := logCall now oc (default (zeroContact id) (contacts p !! id))]>
      (contacts p).
Proof. unfold recordOutcomeOn. by destruct (countOutcomes _) as [[? ?] ?]. Qed.

Lemma contacts_clearMissedOutcomesOn p :
  contacts (clearMissedOutcomesOn p) = clearMissed <$> contacts p.
Proof. unfold clearMissedOutcomesOn. by destruct (countOutcomes _) as [[? ?] ?]. Qed.

Lemma contacts_freshProgress_lookup cid ids id c :
  contacts (freshProgress cid ids) !! id = Some c -> c = zeroContact id.
Proof.
  unfold freshProgress. simpl.
  assert (Hgen : forall (m : gmap string ContactProgress),
             (forall c', m !! id = Some c' -> c' = zeroContact id) ->
             fold_left (fun cs i => <[i := zeroContact i]> cs) ids m !! id = Some c ->
             c = zeroContact id).
  { induction ids as [|i ids IH]; intros m Hm; simpl; [by apply Hm|].
    apply IH. intros c'. rewrite lookup_insert. case_decide; [|by apply Hm].
    subst. congruence. }
  apply Hgen. intros c'. by rewrite lookup_empty.
Qed.

(** An invariant of snapshots that every body of the store operations keeps,
    for the clock readings allowed by [clock_ok], is kept by every sequence
    of calls with such readings, on every campaign of the store. *)
Section StoreInvariant.
Variable I : CampaignProgress -> Prop.
Variable clock_ok : Z -> Prop.
Hypothesis I_fresh : forall cid ids, I (freshProgress cid ids).
Hypothesis I_backfill : forall p id, I p -> I (backfill p id).
Hypothesis I_recordOutcome :
  forall now p id oc, clock_ok now -> I p -> I (recordOutcomeOn now p id oc).
Hypothesis I_recordSurveyResponse :
  forall now p id answer,
    clock_ok now -> I p -> I (recordSurveyResponseOn now p id answer).
Hypothesis I_clearMissedOutcomes : forall p, I p -> I (clearMissedOutcomesOn p).
Hypothesis I_clearSurveyResponse :
  forall p id, I p -> I (clearSurveyResponseOn p id).

Lemma I_backfill_all ids p : I p -> I (fold_left backfill ids p).
Proof using I_backfill. revert p. induction ids; simpl; auto. Qed.

Lemma step_preserves st op :
  op_clock_ok clock_ok op -> store_inv I st -> store_inv I (step st op).
Proof using All.
  intros Hclock Hst. unfold step, exec.
  destruct op as [cid ids|now cid id oc|now cid id answer|cid|cid id|cid]; simpl.
  - unfold loadOrInitProgress.
    destruct (st !! storageKey cid) as [raw|] eqn:Hraw; simpl;
      apply map_Forall_insert_2; auto.
    apply I_backfill_all. by apply (Hst _ _ Hraw).
  - unfold recordOutcome.
    destruct (st !! storageKey cid) as [raw|] eqn:Hraw; simpl; [|done].
    apply map_Forall_insert_2; [|done].
    apply I_recordOutcome; [done|apply (Hst _ _ Hraw)].
  - unfold recordSurveyResponse.
    destruct (st !! storageKey cid) as [raw|] eqn:Hraw; simpl; [|done].
    apply map_Forall_insert_2; [|done].
    apply I_recordSurveyResponse; [done|apply (Hst _ _ Hraw)].
  - unfold clearMissedOutcomes.
    destruct (st !! storageKey cid) as [raw|] eqn:Hraw; simpl; [|done].
    apply map_Forall_insert_2; [|done].
    apply I_clearMissedOutcomes, (Hst _ _ Hraw).
  - unfold clearSurveyResponse.
    destruct (st !! storageKey cid) as [raw|] eqn:Hraw; simpl; [|done].
    apply map_Forall_insert_2; [|done].
    apply I_clearSurveyResponse, (Hst _ _ Hraw).
  - by apply map_Forall_delete.
Qed.

Lemma run_preserves st ops :
  Forall (op_clock_ok clock_ok) ops ->
  store_inv I st -> store_inv I (run st ops).
Proof using All.
  unfold run. intros Hclock. revert st.
  induction Hclock as [|op ops Hop Hops IH]; intros st Hst; simpl.
  - done.
  - by apply IH, step_preserves.
Qed.
End StoreInvariant.

Lemma any_clock_ok ops : Forall (op_clock_ok (fun _ => True)) ops.
Proof. apply Forall_forall. by intros []. Qed.

(** ** The call totals *)

Section CountingInsert.
Context (P : ContactProgress -> Prop) `{!forall c, Decision (P c)}.

(** Writing a contact that satisfies [P] exactly when the one it replaces
    does (and does not satisfy [P] when it replaces none) keeps the count. *)
Lemma countWhere_insert_neutral cs i c' :
  (forall c, cs !! i = Some c -> (P c' <-> P c)) ->
  (cs !! i = None -> ~ P c') ->
  countWhere P (<[i := c']> cs) = countWhere P cs.
Proof using Type*.
  intros Hsome Hnone. destruct (cs !! i) as [c|] eqn:Hi.
  - rewrite <- (insert_delete_id cs i c Hi) at 2.
    rewrite <- (insert_delete_eq cs i c').
    rewrite !countWhere_insert_fresh by apply lookup_delete_eq.
    specialize (Hsome c eq_refl).
    destruct (decide (P c')), (decide (P c)); tauto || done.
  - rewrite countWhere_insert_fresh by done.
    rewrite decide_False by auto. done.
Qed.

Lemma countWhere_nobody cs :
  map_Forall (fun _ c => ~ P c) cs -> countWhere P cs = 0.
Proof using Type*.
  intros Hno. unfold countWhere.
  rewrite map_empty_filter_2; [apply map_size_empty|].
  intros i c Hc. simpl. by apply (Hno i c).
Qed.
End CountingInsert.

(** Replacing, or adding, a contact without changing the outcome recorded
    for its id keeps the call totals correct. *)
Lemma totals_ok_insert p p' i c' :
  contacts p' = <[i := c']> (contacts p) ->
  made (totals p') = made (totals p) ->
  answeredCount (totals p') = answeredCount (totals p) ->
  missedCount (totals p') = missedCount (totals p) ->
  outcome c' = (contacts p !! i) ≫= outcome ->
  totals_ok p -> totals_ok p'.
Proof.
  intros Hcs Hm Ha Hmi Hoc (Hpm & Hpa & Hpmi & Hsum).
  unfold totals_ok. rewrite Hcs, Hm, Ha, Hmi.
  rewrite !countWhere_insert_neutral; [done|..];
    try (intros c Hc; rewrite Hc in Hoc; simpl in Hoc; by rewrite Hoc);
    intros Hnone; rewrite Hnone in Hoc; simpl in Hoc; rewrite Hoc;
    [discriminate|discriminate|by intros [? ?]].
Qed.

Lemma totals_ok_freshProgress cid ids : totals_ok (freshProgress cid ids).
Proof.
  assert (Hnone : forall i c, contacts (freshProgress cid ids) !! i = Some c ->
                              outcome c = None).
  { intros i c Hc. by rewrite (contacts_freshProgress_lookup _ _ _ _ Hc). }
  unfold totals_ok.
  rewrite !countWhere_nobody; [done|..]; intros i c Hc;
    rewrite (Hnone i c Hc); [discriminate|discriminate|by intros [? ?]].
Qed.

Lemma totals_ok_backfill p id : totals_ok p -> totals_ok (backfill p id).
Proof.
  unfold backfill. destruct (contacts p !! id) as [c|] eqn:Hc;
    eapply (totals_ok_insert p _ id); simpl; try reflexivity; by rewrite Hc.
Qed.

Lemma totals_ok_recordSurveyResponseOn now p id answer :
  totals_ok p -> totals_ok (recordSurveyResponseOn now p id answer).
Proof.
  eapply (totals_ok_insert p _ id); simpl; try reflexivity.
  by destruct (contacts p !! id).
Qed.

Lemma totals_ok_clearSurveyResponseOn p id :
  totals_ok p -> totals_ok (clearSurveyResponseOn p id).
Proof.
  unfold clearSurveyResponseOn.
  destruct (contacts p !! id) as [c|] eqn:Hc; [|done].
  eapply (totals_ok_insert p _ id); simpl; try reflexivity; by rewrite Hc.
Qed.

(** The invariant of the data model: in every store that the operations
    build, the call totals of every snapshot agree with its contacts. *)
Lemma store_totals_invariant (st : Storage) (ops : list Op) :
  store_inv totals_ok st -> store_inv totals_ok (run st ops).
Proof.
  intros Hst.
  apply (run_preserves totals_ok (fun _ => True));
    [| | | | | |apply any_clock_ok|exact Hst].
  - apply totals_ok_freshProgress.
  - apply totals_ok_backfill.
  - intros now p id oc _ _. apply recordOutcomeOn_totals_ok.
  - intros now p id answer _. apply totals_ok_recordSurveyResponseOn.
  - intros p _. apply clearMissedOutcomesOn_totals_ok.
  - apply totals_ok_clearSurveyResponseOn.
Qed.

(** The calls on a snapshot: the last call recomputes the totals by a full
    scan, whatever the totals were before. *)
Lemma snapshot_totals_after_outcome_calls p calls :
  calls <> [] \/ totals_ok p ->
  totals_ok (fold_left applyOutcomeCall calls p).
Proof.
  destruct calls as [|c calls _] using rev_ind.
  - intros [?|?]; [done|done].
  - intros _. rewrite fold_left_app. simpl. apply applyOutcomeCall_totals_ok.
Qed.

Lemma campaignId_recordOutcomeOn now p id oc :
  campaignId (recordOutcomeOn now p id oc) = campaignId p.
Proof. unfold recordOutcomeOn. by destruct (countOutcomes _) as [[? ?] ?]. Qed.

Lemma campaignId_clearMissedOutcomesOn p :
  campaignId (clearMissedOutcomesOn p) = campaignId p.
Proof. unfold clearMissedOutcomesOn. by destruct (countOutcomes _) as [[? ?] ?]. Qed.

(** The calls run against the storage leave, under the key of the campaign,
    the snapshot that the calls build. *)
Lemma run_outcome_calls st cid p calls :
  st !! storageKey cid = Some p -> campaignId p = cid ->
  run st (outcomeOp cid <$> calls) !! storageKey cid
  = Some (fold_left applyOutcomeCall calls p).
Proof.
  unfold run. revert st p.
  induction calls as [|c calls IH]; intros st p Hp Hid; simpl; [done|].
  apply IH.
  - unfold step, exec. destruct c as [now id oc|]; simpl.
    + unfold recordOutcome. rewrite Hp. simpl. unfold saveProgress.
      rewrite campaignId_recordOutcomeOn, Hid. apply lookup_insert_eq.
    + unfold clearMissedOutcomes. rewrite Hp. simpl. unfold saveProgress.
      rewrite campaignId_clearMissedOutcomesOn, Hid. apply lookup_insert_eq.
  - destruct c; simpl.
    + by rewrite campaignId_recordOutcomeOn.
    + by rewrite campaignId_clearMissedOutcomesOn.
Qed.

(** C1. After any sequence of [recordOutcome] and [clearMissedOutcomes]
    calls applied to the stored snapshot of a campaign (any snapshot when
    at least one call is made, a snapshot with correct totals otherwise),
    the stored totals are correct: [totals.made] is the number of contacts
    whose outcome is set, [totals.answered] the number of contacts with
    outcome [answered], [totals.missed] the number of contacts with outcome
    [no_answer], and answered + missed = made. *)
Theorem totals_after_outcome_calls
    (st : Storage) (cid : string) (p : CampaignProgress)
    (calls : list OutcomeCall) :
  st !! storageKey cid = Some p -> campaignId p = cid ->
  calls <> [] \/ totals_ok p ->
  exists p', run st (outcomeOp cid <$> calls) !! storageKey cid = Some p'
             /\ p' = fold_left applyOutcomeCall calls p
             /\ totals_ok p'.
Proof.
  intros Hp Hid Hcalls. eexists. split; [by apply run_outcome_calls|].
  split; [done|]. by apply snapshot_totals_after_outcome_calls.
Qed.

(** Witness of [totals_after_outcome_calls]: three calls on a fresh
    snapshot of two contacts. *)
Lemma totals_after_outcome_calls_witness :
  exists p',
    run {[ storageKey "c1" := freshProgress "c1" ["a"; "b"] ]}
      (outcomeOp "c1" <$> [CallRecordOutcome 1000 "a" no_answer;
                           CallClearMissedOutcomes;
                           CallRecordOutcome 2000 "b" answered])
      !! storageKey "c1" = Some p'
    /\ p' = fold_left applyOutcomeCall
               [CallRecordOutcome 1000 "a" no_answer;
                CallClearMissedOutcomes;
                CallRecordOutcome 2000 "b" answered]
               (freshProgress "c1" ["a"; "b"])
    /\ totals_ok p'.
Proof.
  apply totals_after_outcome_calls.
  - apply lookup_singleton_eq.
  - reflexivity.
  - left. discriminate.
Defined.

Example totals_after_three_calls :
  totals (fold_left applyOutcomeCall
            [CallRecordOutcome 1000 "a" no_answer;
             CallClearMissedOutcomes;
             CallRecordOutcome 2000 "b" answered]
            (freshProgress "c1" ["a"; "b"]))
  = {| total := 2; made := 1; answeredCount := 1; missedCount := 0 |}.
Proof. vm_compute. reflexivity. Qed.

(** ** [totals.total] against the size of [contacts] *)

(** C2. [recordOutcome] and [recordSurveyResponse] on a contact id that the
    snapshot does not hold add the contact and leave [totals.total] as it
    was: after [loadOrInitProgress] on the queue [a], recording for [b]
    gives a snapshot with two contacts and [totals.total = 1]. *)
Theorem total_not_updated_on_new_contact :
  let st := (loadOrInitProgress ∅ "c1" ["a"]).1 in
  (exists st' p, recordOutcome 1000 st "c1" "b" answered = Ok (st', p)
                 /\ total (totals p) = 1 /\ size (contacts p) = 2)
  /\ (exists st' p, recordSurveyResponse 1000 st "c1" "b" "Yes" = Ok (st', p)
                    /\ total (totals p) = 1 /\ size (contacts p) = 2).
Proof.
  split; eexists _, _; (split; [reflexivity|]); split; vm_compute; reflexivity.
Qed.

(** The fresh snapshot takes [totals.total] from the length of the queue:
    an id that occurs twice is counted twice and stored once. *)
Example total_of_fresh_counts_repeated_ids :
  total (totals (freshProgress "c1" ["a"; "a"])) = 2
  /\ size (contacts (freshProgress "c1" ["a"; "a"])) = 1.
Proof. split; vm_compute; reflexivity. Qed.

(** The paths that keep [totals.total], and the ones that do not. *)

Lemma backfill_total_ok p id : total_ok p -> total_ok (backfill p id).
Proof.
  unfold total_ok, backfill. intros Hp.
  destruct (contacts p !! id) as [c|] eqn:Hc; simpl.
  - by rewrite map_size_insert_Some.
  - rewrite map_size_insert_None by done. lia.
Qed.

Lemma recordOutcomeOn_total_known now p id oc :
  is_Some (contacts p !! id) -> total_ok p ->
  total_ok (recordOutcomeOn now p id oc).
Proof.
  unfold total_ok. intros Hid Hp. rewrite contacts_recordOutcomeOn.
  rewrite map_size_insert_Some by done.
  unfold recordOutcomeOn. by destruct (countOutcomes _) as [[? ?] ?].
Qed.

Lemma recordOutcomeOn_total_unknown now p id oc :
  contacts p !! id = None -> total_ok p ->
  size (contacts (recordOutcomeOn now p id oc))
  = S (total (totals (recordOutcomeOn now p id oc))).
Proof.
  unfold total_ok. intros Hid Hp. rewrite contacts_recordOutcomeOn.
  rewrite map_size_insert_None by done.
  unfold recordOutcomeOn. destruct (countOutcomes _) as [[? ?] ?]. simpl. lia.
Qed.

Lemma recordSurveyResponseOn_total_known now p id answer :
  is_Some (contacts p !! id) -> total_ok p ->
  total_ok (recordSurveyResponseOn now p id answer).
Proof.
  unfold total_ok, recordSurveyResponseOn. intros Hid Hp. simpl.
  by rewrite map_size_insert_Some.
Qed.

Lemma recordSurveyResponseOn_total_unknown now p id answer :
  contacts p !! id = None -> total_ok p ->
  size (contacts (recordSurveyResponseOn now p id answer))
  = S (total (totals (recordSurveyResponseOn now p id answer))).
Proof.
  unfold total_ok, recordSurveyResponseOn. intros Hid Hp. simpl.
  rewrite map_size_insert_None by done. lia.
Qed.

Lemma clearMissedOutcomesOn_total_ok p :
  total_ok p -> total_ok (clearMissedOutcomesOn p).
Proof.
  unfold total_ok. intros Hp. rewrite contacts_clearMissedOutcomesOn.
  rewrite map_size_fmap.
  unfold clearMissedOutcomesOn. by destruct (countOutcomes _) as [[? ?] ?].
Qed.

Lemma clearSurveyResponseOn_total_ok p id :
  total_ok p -> total_ok (clearSurveyResponseOn p id).
Proof.
  unfold total_ok, clearSurveyResponseOn. intros Hp.
  destruct (contacts p !! id) as [c|] eqn:Hc; simpl; [|done].
  by rewrite map_size_insert_Some.
Qed.

(** ** Latest-value fields against the trails *)

Lemma last_snoc_default {A} (l : option (list A)) (x : A) :
  list.last (default [] l ++ [x]) = Some x.
Proof. apply last_snoc. Qed.

Lemma lastCall_ensured c :
  Some (default [] (logs c)) ≫= list.last = lastCall c.
Proof. unfold lastCall. by destruct (logs c). Qed.

Lemma lastSurvey_ensured c :
  Some (default [] (surveyLogs c)) ≫= list.last = lastSurvey c.
Proof. unfold lastSurvey. by destruct (surveyLogs c). Qed.

Lemma latest_or_cleared_zero id : latest_or_cleared (zeroContact id).
Proof. unfold latest_or_cleared; simpl; auto. Qed.

Lemma latest_or_cleared_ensureLogs c :
  latest_or_cleared c -> latest_or_cleared (ensureLogs c).
Proof.
  unfold latest_or_cleared. intros (Ho & Hl & Hs).
  change (lastCall (ensureLogs c))
    with (Some (default [] (logs c)) ≫= list.last).
  change (lastSurvey (ensureLogs c))
    with (Some (default [] (surveyLogs c)) ≫= list.last).
  by rewrite lastCall_ensured, lastSurvey_ensured.
Qed.

Lemma latest_or_cleared_logCall now oc c :
  latest_or_cleared c -> latest_or_cleared (logCall now oc c).
Proof.
  intros (_ & _ & Hs). unfold latest_or_cleared.
  change (lastSurvey (logCall now oc c))
    with (Some (default [] (surveyLogs c)) ≫= list.last).
  rewrite lastSurvey_ensured.
  unfold lastCall. simpl. rewrite last_snoc_default. simpl.
  split; [by left|]. by split.
Qed.

Lemma latest_or_cleared_logSurvey now answer c :
  latest_or_cleared c -> latest_or_cleared (logSurvey now answer c).
Proof.
  intros (Ho & Hl & _). unfold latest_or_cleared.
  change (lastCall (logSurvey now answer c)) with (lastCall c).
  split; [done|]. split; [done|].
  unfold lastSurvey. simpl. rewrite last_snoc_default. by left.
Qed.

Lemma latest_or_cleared_clearMissed c :
  latest_or_cleared c -> latest_or_cleared (clearMissed c).
Proof.
  intros (Ho & Hl & Hs). unfold clearMissed.
  case_decide as Hmissed; [|done].
  unfold latest_or_cleared.
  change (lastCall _) with (lastCall c). change (lastSurvey _) with (lastSurvey c).
  simpl. split; [|done]. right. split; [done|].
  destruct Ho as [Ho|[Ho _]]; congruence.
Qed.

Lemma latest_or_cleared_dropSurveyAnswer c :
  latest_or_cleared c -> latest_or_cleared (dropSurveyAnswer c).
Proof.
  intros (Ho & Hl & Hs). unfold latest_or_cleared.
  change (lastCall (dropSurveyAnswer c)) with (lastCall c).
  change (lastSurvey (dropSurveyAnswer c))
    with (Some (default [] (surveyLogs c)) ≫= list.last).
  rewrite lastSurvey_ensured. simpl.
  split; [done|]. split; [done|].
  destruct (lastSurvey c) as [e|]; [right|left]; [|done].
  split; [done|by eexists].
Qed.

Lemma default_zero_latest p id :
  all_contacts latest_or_cleared p ->
  latest_or_cleared (default (zeroContact id) (contacts p !! id)).
Proof.
  intros Hp. destruct (contacts p !! id) as [c|] eqn:Hc; simpl.
  - by apply (Hp _ _ Hc).
  - apply latest_or_cleared_zero.
Qed.

(** C3 (as amended). From a store whose contacts have [lastCalledAt] equal
    to the [at] of the last call log entry, [outcome] equal to the outcome
    of the last call log entry or unset while that entry says [no_answer],
    and [surveyAnswer] equal to the answer of the last survey log entry or
    unset while the survey log has an entry, every sequence of store
    operations leads to a store with the same property. *)
Theorem latest_values_follow_trails (st : Storage) (ops : list Op) :
  store_inv (all_contacts latest_or_cleared) st ->
  store_inv (all_contacts latest_or_cleared) (run st ops).
Proof.
  intros Hst.
  apply (run_preserves (all_contacts latest_or_cleared) (fun _ => True));
    [| | | | | |apply any_clock_ok|exact Hst].
  - intros cid ids id c Hc.
    rewrite (contacts_freshProgress_lookup _ _ _ _ Hc).
    apply latest_or_cleared_zero.
  - intros p id Hp. unfold backfill.
    destruct (contacts p !! id) as [c|] eqn:Hc; simpl;
      apply map_Forall_insert_2; try done.
    + apply latest_or_cleared_ensureLogs, (Hp _ _ Hc).
    + apply latest_or_cleared_zero.
  - intros now p id oc _ Hp. unfold all_contacts.
    rewrite contacts_recordOutcomeOn.
    apply map_Forall_insert_2; [|done].
    by apply latest_or_cleared_logCall, default_zero_latest.
  - intros now p id answer _ Hp. unfold all_contacts, recordSurveyResponseOn. simpl.
    apply map_Forall_insert_2; [|done].
    by apply latest_or_cleared_logSurvey, default_zero_latest.
  - intros p Hp. unfold all_contacts.
    rewrite contacts_clearMissedOutcomesOn.
    apply map_Forall_fmap. intros id c Hc. simpl.
    apply latest_or_cleared_clearMissed, (Hp _ _ Hc).
  - intros p id Hp. unfold clearSurveyResponseOn.
    destruct (contacts p !! id) as [c|] eqn:Hc; [|done].
    apply map_Forall_insert_2; [|done].
    apply latest_or_cleared_dropSurveyAnswer, (Hp _ _ Hc).
Qed.

(** Witness of [latest_values_follow_trails]. *)
Lemma latest_values_follow_trails_witness :
  store_inv (all_contacts latest_or_cleared) (run ∅ missedThenCleared).
Proof.
  apply latest_values_follow_trails. apply map_Forall_empty.
Defined.

(** C3 (as stated) fails: after [clearMissedOutcomes] the outcome of the
    contact is unset while the last call log entry says [no_answer], and
    after [clearSurveyResponse] the survey answer is unset while the last
    survey log entry holds the answer. *)
Lemma latest_values_not_last_entry_after_clear :
  ~ store_inv (all_contacts latest_ok) (run ∅ missedThenCleared)
  /\ ~ store_inv (all_contacts latest_ok) (run ∅ surveyThenCleared).
Proof.
  split; intros Hinv.
  - destruct (run ∅ missedThenCleared !! storageKey "c1") as [p|] eqn:Hp;
      [|by vm_compute in Hp].
    destruct (contacts p !! "a") as [c|] eqn:Hc.
    + destruct (Hinv _ _ Hp _ _ Hc) as (Ho & _).
      vm_compute in Hp. injection Hp as <-.
      vm_compute in Hc. injection Hc as <-.
      vm_compute in Ho. discriminate.
    + vm_compute in Hp. injection Hp as <-. by vm_compute in Hc.
  - destruct (run ∅ surveyThenCleared !! storageKey "c1") as [p|] eqn:Hp;
      [|by vm_compute in Hp].
    destruct (contacts p !! "a") as [c|] eqn:Hc.
    + destruct (Hinv _ _ Hp _ _ Hc) as (_ & _ & Hs).
      vm_compute in Hp. injection Hp as <-.
      vm_compute in Hc. injection Hc as <-.
      vm_compute in Hs. discriminate.
    + vm_compute in Hp. injection Hp as <-. by vm_compute in Hc.
Qed.

(** ** Queue navigator *)

Lemma first_match_here sel id rest :
  sel id -> first_match sel (id :: rest) (Some id).
Proof. intros Hs. exists [], rest. by repeat split. Qed.

Lemma first_match_later sel id rest r :
  ~ sel id -> first_match sel rest r -> first_match sel (id :: rest) r.
Proof.
  intros Hn. destruct r as [x|]; simpl.
  - intros (pre & post & -> & Hx & Hpre).
    exists (id :: pre), post. repeat split; [done|by constructor].
  - by constructor.
Qed.

Lemma pickUnattempted_first p skipId queueIds :
  first_match (isUnattempted p skipId) queueIds
    (pickUnattempted p skipId queueIds).
Proof.
  induction queueIds as [|id rest IH]; simpl; [constructor|].
  case_decide as Hskip.
  { apply first_match_later; [|done]. by intros [? _]. }
  destruct (contacts p !! id) as [c|] eqn:Hc.
  - case_decide as Ha.
    + apply first_match_here. split; [done|]. right. eauto.
    + apply first_match_later; [|done].
      intros [_ [?|(c' & ? & ?)]]; congruence.
  - apply first_match_here. split; [done|]. by left.
Qed.

Lemma pickMissed_first p skipId queueIds :
  first_match (isMissed p skipId) queueIds (pickMissed p skipId queueIds).
Proof.
  induction queueIds as [|id rest IH]; simpl; [constructor|].
  case_decide as Hskip.
  { apply first_match_later; [|done]. by intros [? _]. }
  destruct (contacts p !! id) as [c|] eqn:Hc.
  - case_decide as Ho.
    + apply first_match_here. split; [done|]. eauto.
    + apply first_match_later; [|done].
      intros [_ (c' & ? & ?)]; congruence.
  - apply first_match_later; [|done].
    intros [_ (c' & ? & ?)]; congruence.
Qed.

(** C4. With a snapshot, [pickNextId] returns the first id of the queue,
    other than [skipId], whose contact is absent or has no attempt
    (strategy [unattempted]) or has outcome [no_answer] (strategy [missed]),
    and none when there is no such id.  On the queue [a; b; c]: after
    [answered] for [a] the unattempted pass gives [b]; after [no_answer]
    for [b] it gives [c]; after [answered] for [c] it gives none, and the
    totals are total 3, made 3, answered 2, missed 1. *)
Theorem pickNextId_first_in_queue_order :
  (forall queueIds p strategy skipId,
      first_match (wanted p strategy skipId) queueIds
        (pickNextId queueIds (Some p) strategy skipId))
  /\ (forall t1 t2 t3,
        let queue := ["a"; "b"; "c"] in
        let st0 := (loadOrInitProgress ∅ "c1" queue).1 in
        exists st1 p1 st2 p2 st3 p3,
          recordOutcome t1 st0 "c1" "a" answered = Ok (st1, p1)
          /\ pickNextId queue (Some p1) unattempted None = Some "b"
          /\ recordOutcome t2 st1 "c1" "b" no_answer = Ok (st2, p2)
          /\ pickNextId queue (Some p2) unattempted None = Some "c"
          /\ recordOutcome t3 st2 "c1" "c" answered = Ok (st3, p3)
          /\ pickNextId queue (Some p3) unattempted None = None
          /\ totals p3 = {| total := 3; made := 3;
                            answeredCount := 2; missedCount := 1 |}
          /\ getSummary st3 "c1" = Ok (totals p3)).
Proof.
  split.
  - intros queueIds p [] skipId; simpl.
    + apply pickUnattempted_first.
    + apply pickMissed_first.
  - intros t1 t2 t3 queue st0. eexists _, _, _, _, _, _.
    split; [reflexivity|]. split; [vm_compute; reflexivity|].
    split; [reflexivity|]. split; [vm_compute; reflexivity|].
    split; [reflexivity|]. split; [vm_compute; reflexivity|].
    split; vm_compute; reflexivity.
Qed.

(** ** Record filter *)

Section FilterTheorems.
Context `{rt : JsRuntime}.

Lemma forallb_matchesAll filters row :
  forallb (matchesCondition row) filters = true <-> matchesAll filters row.
Proof.
  unfold matchesAll. induction filters as [|f filters IH]; simpl.
  - split; [constructor|done].
  - split.
    + intros [Hf Hrest]%andb_true_iff. constructor; [done|by apply IH].
    + intros Hall. inversion_clear Hall as [|? ? Hf Hrest].
      apply andb_true_iff. split; [done|by apply IH].
Qed.

Lemma applyFilters_filter data filters :
  applyFilters data filters = filter (matchesAll filters) data.
Proof.
  unfold applyFilters. case_decide as Hlen.
  - destruct filters; [|done].
    induction data as [|row data IH]; [done|].
    rewrite filter_cons_True; [by f_equal|constructor].
  - induction data as [|row data IH]; [done|]. simpl.
    destruct (forallb (matchesCondition row) filters) eqn:Hall.
    + rewrite filter_cons_True by by apply forallb_matchesAll. by f_equal.
    + rewrite filter_cons_False; [done|].
      rewrite <- forallb_matchesAll. congruence.
Qed.

(** C5. Filtering with the empty filter set returns the records
    unchanged; for every filter set the result is the records, in their
    order and with their repetitions, for which every condition matches:
    a sublist of the input that keeps exactly those records. *)
Theorem applyFilters_keeps_matching_in_order (data : list Student) :
  applyFilters data [] = data
  /\ forall filters,
      applyFilters data filters = filter (matchesAll filters) data
      /\ applyFilters data filters `sublist_of` data
      /\ forall row, row ∈ applyFilters data filters
                     <-> row ∈ data /\ matchesAll filters row.
Proof.
  split; [done|]. intros filters.
  rewrite applyFilters_filter. split; [done|]. split.
  - apply sublist_filter.
  - intros row. rewrite list_elem_of_filter. tauto.
Qed.

(** C6. For the operators [>], [>=], [<] and [<=], when [parseFloat] is
    NaN on the cell (missing and null read as the empty string) or on the
    value of the condition, the condition is false for the record, and a
    filter set that holds the condition drops the record; [applyFilters]
    is a total function, so nothing is raised. *)
Theorem numeric_parse_failure_never_matches
    (row : Student) (f : FilterCondition) :
  isNumericOp (op f) = true ->
  parseFloat (cellText row (field f)) = None \/ parseFloat (value f) = None ->
  matchesCondition row f = false
  /\ forall data filters, f ∈ filters -> row ∉ applyFilters data filters.
Proof.
  intros Hop Hnan.
  assert (Hf : matchesCondition row f = false).
  { unfold matchesCondition. rewrite Hop.
    destruct Hnan as [-> | ->]; [done|].
    by destruct (parseFloat (cellText row (field f))). }
  split; [done|]. intros data filters Hin.
  rewrite applyFilters_filter, list_elem_of_filter. intros [Hall _].
  unfold matchesAll in Hall. rewrite Forall_forall in Hall.
  apply list_elem_of_In in Hin. specialize (Hall f Hin). congruence.
Qed.

End FilterTheorems.

Example applyFilters_gpa : keptNames [gpaAbove3] = ["Ann"].
Proof. vm_compute. reflexivity. Qed.

Example applyFilters_name_case :
  keptNames [{| field := "first_name"; op := OpEq; value := "BOB" |}] = ["Bob"].
Proof. vm_compute. reflexivity. Qed.

Example applyFilters_substring :
  keptNames [{| field := "first_name"; op := OpLike; value := "N" |}] = ["Ann"].
Proof. vm_compute. reflexivity. Qed.

Example applyFilters_no_filter : keptNames [] = ["Ann"; "Bob"; "Cyd"].
Proof. vm_compute. reflexivity. Qed.

Example getStudentId_examples :
  getStudentId ann 0 = "s1" /\ getStudentId bob 1 = "1".
Proof. split; vm_compute; reflexivity. Qed.

(** Witness of [numeric_parse_failure_never_matches]: the cell of [bob]
    does not parse. *)
Lemma numeric_parse_failure_never_matches_witness :
  matchesCondition bob gpaAbove3 = false
  /\ forall data filters, gpaAbove3 ∈ filters -> bob ∉ applyFilters data filters.
Proof.
  apply numeric_parse_failure_never_matches.
  - reflexivity.
  - left. vm_compute. reflexivity.
Defined.

(** ** Idempotence of [loadOrInitProgress] *)

Lemma ensureLogs_idemp c : ensureLogs (ensureLogs c) = ensureLogs c.
Proof. done. Qed.

Lemma ensureLogs_zeroContact id : ensureLogs (zeroContact id) = zeroContact id.
Proof. done. Qed.

Lemma backfill_settled_id p id : settled p id -> backfill p id = p.
Proof.
  intros (c & Hc & Hfix). unfold backfill. rewrite Hc, Hfix.
  rewrite insert_id by done. by destruct p.
Qed.

Lemma backfill_settles p id : settled (backfill p id) id.
Proof.
  unfold settled, backfill. destruct (contacts p !! id) as [c|]; simpl;
    eexists; (split; [apply lookup_insert_eq|done]).
Qed.

Lemma backfill_keeps_settled p id id' :
  settled p id' -> settled (backfill p id) id'.
Proof.
  intros Hs. destruct (decide (id = id')) as [->|Hne]; [apply backfill_settles|].
  destruct Hs as (c & Hc & Hfix). exists c. split; [|done].
  unfold backfill. destruct (contacts p !! id); simpl; by rewrite lookup_insert_ne.
Qed.

Lemma backfill_all_keeps_settled ids p id' :
  settled p id' -> settled (fold_left backfill ids p) id'.
Proof.
  revert p. induction ids as [|id ids IH]; intros p Hs; simpl; [done|].
  by apply IH, backfill_keeps_settled.
Qed.

Lemma backfill_all_settles ids p :
  Forall (settled (fold_left backfill ids p)) ids.
Proof.
  revert p. induction ids as [|id ids IH]; intros p; simpl; constructor.
  - apply backfill_all_keeps_settled, backfill_settles.
  - apply IH.
Qed.

Lemma backfill_all_settled_id ids p :
  Forall (settled p) ids -> fold_left backfill ids p = p.
Proof.
  induction 1 as [|id ids Hid Hids IH]; simpl; [done|].
  by rewrite backfill_settled_id.
Qed.

Lemma freshProgress_settles cid ids :
  Forall (settled (freshProgress cid ids)) ids.
Proof.
  unfold settled, freshProgress. simpl.
  assert (Hkeep : forall ids (m : gmap string ContactProgress) id,
             m !! id = Some (zeroContact id) ->
             fold_left (fun cs i => <[i := zeroContact i]> cs) ids m !! id
             = Some (zeroContact id)).
  { clear. induction ids as [|i ids IH]; intros m id Hm; simpl; [done|].
    apply IH. rewrite lookup_insert. case_decide; by subst. }
  generalize (∅ : gmap string ContactProgress).
  induction ids as [|id ids IH]; intros m; simpl; constructor.
  - exists (zeroContact id). split; [|done].
    apply Hkeep, lookup_insert_eq.
  - apply IH.
Qed.

(** After [loadOrInitProgress], every id of the queue is settled. *)
Lemma loadOrInitProgress_settles st cid ids :
  Forall (settled (loadOrInitProgress st cid ids).2) ids.
Proof.
  unfold loadOrInitProgress. destruct (st !! storageKey cid); simpl.
  - apply backfill_all_settles.
  - apply freshProgress_settles.
Qed.

Lemma loadOrInitProgress_stored st cid ids :
  (loadOrInitProgress st cid ids).1 !! storageKey cid
  = Some (loadOrInitProgress st cid ids).2.
Proof.
  unfold loadOrInitProgress.
  destruct (st !! storageKey cid); simpl; apply lookup_insert_eq.
Qed.

(** C7. [loadOrInitProgress] is idempotent: a second call with the same
    queue returns the snapshot of the first call (same totals, same
    contacts with the same state) and leaves the storage as the first
    call left it. *)
Theorem loadOrInitProgress_idempotent
    (st : Storage) (campaignId : string) (queueIds : list string) :
  let first := loadOrInitProgress st campaignId queueIds in
  loadOrInitProgress first.1 campaignId queueIds = first.
Proof.
  intros first.
  pose proof (loadOrInitProgress_stored st campaignId queueIds) as Hstored.
  pose proof (loadOrInitProgress_settles st campaignId queueIds) as Hsettled.
  fold first in Hstored, Hsettled.
  unfold loadOrInitProgress at 1. rewrite Hstored.
  rewrite backfill_all_settled_id by done.
  rewrite insert_id by done. by destruct first.
Qed.

(** ** Timestamps stay positive under a positive clock *)

Lemma timesPositive_zero id : timesPositive (zeroContact id).
Proof.
  split; simpl; [done|]. intros l e [= <-] He. by apply elem_of_nil in He.
Qed.

Lemma timesPositive_ensured c l e :
  timesPositive c -> default [] (surveyLogs c) = l -> e ∈ l -> (0 < slog_at e)%Z.
Proof.
  intros [_ Hlogs] <-. destruct (surveyLogs c) as [l|] eqn:Hl; simpl.
  - by apply Hlogs.
  - intros He. by apply elem_of_nil in He.
Qed.

Lemma timesPositive_ensureLogs c : timesPositive c -> timesPositive (ensureLogs c).
Proof.
  intros Hc. split; simpl; [apply Hc|].
  intros l e [= <-]. by eapply timesPositive_ensured.
Qed.

Lemma timesPositive_logCall now oc c :
  (0 < now)%Z -> timesPositive c -> timesPositive (logCall now oc c).
Proof.
  intros Hnow Hc. split; simpl; [by intros t [= <-]|].
  intros l e [= <-]. by eapply timesPositive_ensured.
Qed.

Lemma timesPositive_logSurvey now answer c :
  (0 < now)%Z -> timesPositive c -> timesPositive (logSurvey now answer c).
Proof.
  intros Hnow Hc. split; simpl; [apply Hc|].
  intros l e [= <-] [He|He]%elem_of_app.
  - by eapply timesPositive_ensured.
  - apply list_elem_of_singleton in He as ->. done.
Qed.

Lemma timesPositive_clearMissed c : timesPositive c -> timesPositive (clearMissed c).
Proof. intros Hc. unfold clearMissed. by case_decide. Qed.

Lemma timesPositive_dropSurveyAnswer c :
  timesPositive c -> timesPositive (dropSurveyAnswer c).
Proof.
  intros Hc. split; simpl; [apply Hc|].
  intros l e [= <-]. by eapply timesPositive_ensured.
Qed.

Lemma default_zero_timesPositive p id :
  all_contacts timesPositive p ->
  timesPositive (default (zeroContact id) (contacts p !! id)).
Proof.
  intros Hp. destruct (contacts p !! id) as [c|] eqn:Hc; simpl.
  - by apply (Hp _ _ Hc).
  - apply timesPositive_zero.
Qed.

(** With clock readings after the epoch, the timestamps of every stored
    contact stay positive: the assumption of the report theorems holds of
    every store that the operations build. *)
Lemma positive_clock_keeps_times_positive (st : Storage) (ops : list Op) :
  Forall (op_clock_ok (fun now => (0 < now)%Z)) ops ->
  store_inv (all_contacts timesPositive) st ->
  store_inv (all_contacts timesPositive) (run st ops).
Proof.
  apply run_preserves.
  - intros cid ids id c Hc.
    rewrite (contacts_freshProgress_lookup _ _ _ _ Hc).
    apply timesPositive_zero.
  - intros p id Hp. unfold backfill.
    destruct (contacts p !! id) as [c|] eqn:Hc; simpl;
      apply map_Forall_insert_2; try done.
    + apply timesPositive_ensureLogs, (Hp _ _ Hc).
    + apply timesPositive_zero.
  - intros now p id oc Hnow Hp. unfold all_contacts.
    rewrite contacts_recordOutcomeOn.
    apply map_Forall_insert_2; [|done].
    by apply timesPositive_logCall, default_zero_timesPositive.
  - intros now p id answer Hnow Hp. unfold all_contacts, recordSurveyResponseOn. simpl.
    apply map_Forall_insert_2; [|done].
    by apply timesPositive_logSurvey, default_zero_timesPositive.
  - intros p Hp. unfold all_contacts.
    rewrite contacts_clearMissedOutcomesOn.
    apply map_Forall_fmap. intros id c Hc. simpl.
    apply timesPositive_clearMissed, (Hp _ _ Hc).
  - intros p id Hp. unfold clearSurveyResponseOn.
    destruct (contacts p !! id) as [c|] eqn:Hc; [|done].
    apply map_Forall_insert_2; [|done].
    apply timesPositive_dropSurveyAnswer, (Hp _ _ Hc).
Qed.

(** ** Timestamps of the reports *)

Lemma find_rev_last_filter {A} (P : A -> Prop) `{!forall x, Decision (P x)}
    (l : list A) :
  List.find (fun x => bool_decide (P x)) (rev l) = list.last (filter P l).
Proof.
  induction l as [|x l IH] using rev_ind; [done|].
  rewrite rev_app_distr, list.filter_app. simpl.
  rewrite filter_cons, filter_nil. destruct (decide (P x)) as [HP|HP].
  - rewrite bool_decide_eq_true_2 by done. by rewrite last_snoc.
  - rewrite bool_decide_eq_false_2 by done. by rewrite app_nil_r.
Qed.

Lemma last_filter_elem {A} (P : A -> Prop) `{!forall x, Decision (P x)}
    (l : list A) (x : A) :
  list.last (filter P l) = Some x -> x ∈ l.
Proof.
  intros Hl. apply last_Some_elem_of in Hl.
  by apply list_elem_of_filter in Hl as [_ ?].
Qed.

Lemma report_lastTimestampForAnswer_spec cp :
  CampaignsScreen.lastTimestampForAnswer cp (cp ≫= surveyAnswer)
  = nonEmptyAnswerTime cp.
Proof.
  unfold CampaignsScreen.lastTimestampForAnswer, nonEmptyAnswerTime.
  destruct cp as [c|]; simpl; [|done].
  destruct (surveyAnswer c) as [a|]; simpl; [|done].
  destruct (surveyLogs c) as [[|e l]|]; simpl.
  - by case_decide.
  - case_decide; [done|].
    rewrite (find_rev_last_filter (fun e => slog_answer e = a) (e :: l)).
    by destruct (list.last _).
  - by case_decide.
Qed.

Lemma nonEmptyAnswerTime_positive cp t :
  positive_times cp -> nonEmptyAnswerTime cp = Some t -> (0 < t)%Z.
Proof.
  unfold nonEmptyAnswerTime. intros Hpos.
  destruct cp as [c|]; simpl; [|done].
  destruct (Hpos c eq_refl) as [_ Hlogs].
  destruct (surveyAnswer c) as [a|]; simpl; [|done].
  case_decide; [done|].
  destruct (surveyLogs c) as [l|] eqn:Hl; simpl; [|done].
  destruct (list.last _) as [e|] eqn:He; simpl; [|done].
  intros [= <-]. eapply Hlogs; [done|]. by eapply last_filter_elem.
Qed.

Section ReportTheorems.
Context `{rt : JsRuntime}.

Lemma isoOrEmpty_positive t : (0 < t)%Z -> isoOrEmpty (Some t) = toISOString t.
Proof. intros Ht. unfold isoOrEmpty. case_decide; [lia|done]. Qed.

Lemma timestampCell_spec cp :
  positive_times cp ->
  CampaignsScreen.timestampCell cp
  = renderTime (laterOf (cp ≫= lastCalledAt) (nonEmptyAnswerTime cp)).
Proof.
  intros Hpos. unfold CampaignsScreen.timestampCell.
  rewrite report_lastTimestampForAnswer_spec.
  pose proof (nonEmptyAnswerTime_positive cp) as Hresp.
  assert (Hcall : forall t, cp ≫= lastCalledAt = Some t -> (0 < t)%Z).
  { destruct cp as [c|]; simpl; [|done]. intros t. by apply (Hpos c). }
  destruct (cp ≫= lastCalledAt) as [a|], (nonEmptyAnswerTime cp) as [b|];
    simpl.
  - apply isoOrEmpty_positive. specialize (Hcall a eq_refl). lia.
  - specialize (Hcall a eq_refl).
    rewrite Z.max_l by lia. by apply isoOrEmpty_positive.
  - specialize (Hresp b Hpos eq_refl).
    rewrite Z.max_r by lia. by apply isoOrEmpty_positive.
  - done.
Qed.

Lemma reportRow_timestamp c prog table idx student :
  CampaignsScreen.reportRow c prog table idx student !! "Timestamp"
  = Some (CampaignsScreen.timestampCell
            (prog ≫= fun p => contacts p !! getStudentId student idx)).
Proof. done. Qed.

(** C8 (as amended). In the summary report, the row of the student at
    position [idx] of the filtered roster has, under [Timestamp], the
    ISO-8601 rendering of the later of the contact's [lastCalledAt] and
    the [at] of the last survey log entry whose answer is the contact's
    current, non-empty [surveyAnswer]; it is the empty string when both
    are absent.  Timestamps are positive epoch milliseconds. *)
Theorem report_timestamp_is_latest_activity
    (allStudents : list Student) (prog : option CampaignProgress)
    (c : Campaign) (idx : nat) (student : Student) :
  let cp := prog ≫= fun p => contacts p !! getStudentId student idx in
  applyFilters allStudents (filters c) !! idx = Some student ->
  positive_times cp ->
  exists row,
    CampaignsScreen.reportRows allStudents prog c !! idx = Some row
    /\ row !! "Timestamp"
       = Some (renderTime (laterOf (cp ≫= lastCalledAt) (nonEmptyAnswerTime cp))).
Proof.
  intros cp Hidx Hpos. eexists. split.
  - unfold CampaignsScreen.reportRows. rewrite list_lookup_imap, Hidx. done.
  - rewrite reportRow_timestamp. f_equal. by apply timestampCell_spec.
Qed.

End ReportTheorems.

Ltac positive_times_by_computation :=
  let c := fresh "c" in
  let Hc := fresh "Hc" in
  intros c Hc; vm_compute in Hc; injection Hc as <-; split;
  [ intros t [= <-]; reflexivity
  | intros l e [= <-] He;
    repeat (apply elem_of_cons in He as [->|He]; [reflexivity|]);
    by apply elem_of_nil in He ].

(** Witness of [report_timestamp_is_latest_activity]: a call at 100 and the
    answer [Yes] logged at 50 give the timestamp of 100. *)
Lemma report_timestamp_is_latest_activity_witness :
  exists row,
    CampaignsScreen.reportRows roster (getProgress surveyThenCall "c1") fall !! 0
    = Some row
    /\ row !! "Timestamp" = Some "1970-01-01T00:00:00.100Z".
Proof.
  destruct (report_timestamp_is_latest_activity
              roster (getProgress surveyThenCall "c1") fall 0 ann)
    as (row & Hrow & Hts).
  - reflexivity.
  - positive_times_by_computation.
  - exists row. split; [exact Hrow|]. rewrite Hts. vm_compute. reflexivity.
Defined.

(** What the report and the stated rule give on an empty survey answer
    recorded at 50. *)
Example report_timestamp_on_empty_answer :
  CampaignsScreen.reportRows roster (getProgress emptyAnswer "c1") fall !! 0
    ≫= (fun row => row !! "Timestamp")
  = Some EmptyString
  /\ renderTime (laterOf (contactOf emptyAnswer "s1" ≫= lastCalledAt)
                   (answerTime (contactOf emptyAnswer "s1")))
     = "1970-01-01T00:00:00.050Z".
Proof. split; vm_compute; reflexivity. Qed.

(** C8 (as stated) fails on an empty survey answer: the answer recorded at
    50 is the contact's current [surveyAnswer] and the last survey log
    entry carries it, yet the report leaves [Timestamp] empty instead of
    rendering 50. *)
Lemma report_timestamp_skips_empty_answer :
  positive_times (contactOf emptyAnswer "s1")
  /\ CampaignsScreen.reportRows roster (getProgress emptyAnswer "c1") fall !! 0
       ≫= (fun row => row !! "Timestamp")
     <> Some (renderTime (laterOf (contactOf emptyAnswer "s1" ≫= lastCalledAt)
                            (answerTime (contactOf emptyAnswer "s1")))).
Proof.
  split; [positive_times_by_computation|].
  destruct report_timestamp_on_empty_answer as [-> ->]. discriminate.
Qed.

Section CloudTheorems.
Context `{rt : JsRuntime}.

Lemma surveyFirst_code cp :
  match lastSurveyTimestamp cp with
  | Some t => Some t
  | None => cp ≫= lastCalledAt
  end = surveyFirst cp.
Proof.
  unfold lastSurveyTimestamp, surveyFirst.
  destruct (default [] (cp ≫= surveyLogs)) as [|e l] eqn:Hl; [done|].
  destruct (list.last (e :: l)) as [x|] eqn:Hlast; [done|].
  by apply last_None in Hlast.
Qed.

Lemma surveyFirst_positive cp t :
  positive_times cp -> surveyFirst cp = Some t -> (0 < t)%Z.
Proof.
  intros Hpos. unfold surveyFirst.
  destruct cp as [c|]; simpl; [|done].
  destruct (Hpos c eq_refl) as [Hcall Hlogs].
  destruct (surveyLogs c) as [[|e l]|] eqn:Hl; simpl; try by apply Hcall.
  destruct (list.last (e :: l)) as [x|] eqn:Hlast; [|done].
  intros [= <-]. eapply Hlogs; [done|]. by eapply last_Some_elem_of.
Qed.

Lemma cloudTimestamp_spec cp :
  positive_times cp -> cloudTimestamp cp = renderTime (surveyFirst cp).
Proof.
  intros Hpos. unfold cloudTimestamp. rewrite surveyFirst_code.
  pose proof (surveyFirst_positive cp) as Hp.
  destruct (surveyFirst cp) as [t|]; simpl; [|done].
  unfold isoOrEmpty. case_decide; [|done].
  specialize (Hp t Hpos eq_refl). lia.
Qed.


End CloudTheorems.




(** ** CSV exports without a snapshot *)

Section ExportTheorems.
Context `{rt : JsRuntime}.

(** C10. With no snapshot stored for the campaign, [exportSurveyCSV] and
    [exportCallOutcomesCSV] return their header line followed by a line
    feed, while the mutating operations and [getSummary] fail with
    [NotInitialized]. *)
Theorem exports_without_snapshot_return_header
    (st : Storage) (campaignId : string) :
  st !! storageKey campaignId = None ->
  exportSurveyCSV st campaignId = "contactId,answer,timestamp" +:+ newline
  /\ exportCallOutcomesCSV st campaignId
     = "contactId,outcome,timestamp" +:+ newline
  /\ (forall now id oc,
         recordOutcome now st campaignId id oc = Err NotInitialized)
  /\ (forall now id answer,
         recordSurveyResponse now st campaignId id answer = Err NotInitialized)
  /\ clearMissedOutcomes st campaignId = Err NotInitialized
  /\ (forall id, clearSurveyResponse st campaignId id = Err NotInitialized)
  /\ getSummary st campaignId = Err NotInitialized.
Proof.
  intros Hnone.
  unfold exportSurveyCSV, exportCallOutcomesCSV, recordOutcome,
    recordSurveyResponse, clearMissedOutcomes, clearSurveyResponse, getSummary.
  rewrite Hnone. repeat split.
Qed.

End ExportTheorems.

(** Witness of [exports_without_snapshot_return_header], on the empty
    storage. *)
Lemma exports_without_snapshot_return_header_witness :
  exportSurveyCSV ∅ "c1" = "contactId,answer,timestamp" +:+ newline
  /\ exportCallOutcomesCSV ∅ "c1" = "contactId,outcome,timestamp" +:+ newline.
Proof.
  destruct (exports_without_snapshot_return_header ∅ "c1") as (Hs & Ho & _).
  - apply lookup_empty.
  - by split.
Defined.

(** The exports on a stored snapshot: header, one row per entry, and the
    closing line feed. *)
Example exportCallOutcomesCSV_rows :
  exportCallOutcomesCSV surveyThenCall "c1"
  = "contactId,outcome,timestamp" +:+ newline
    +:+ "s1,answered,1970-01-01T00:00:00.100Z" +:+ newline.
Proof. vm_compute. reflexivity. Qed.

Example exportSurveyCSV_rows :
  exportSurveyCSV surveyThenCall "c1"
  = "contactId,answer,timestamp" +:+ newline
    +:+ "s1,Yes,1970-01-01T00:00:00.050Z" +:+ newline.
Proof. vm_compute. reflexivity. Qed.

(** ** The reports on the example data *)

(** A value with a comma and double quotes is wrapped in double quotes, and
    its double quotes are written twice. *)
Example csvEscape_quotes :
  let q := String dquote EmptyString in
  CampaignsScreen.csvEscape ("Smith, " +:+ q +:+ "Bob" +:+ q)
  = q +:+ "Smith, " +:+ q +:+ q +:+ "Bob" +:+ q +:+ q +:+ q.
Proof. vm_compute. reflexivity. Qed.

Example csvEscape_plain : CampaignsScreen.csvEscape "Ann" = "Ann".
Proof. vm_compute. reflexivity. Qed.

Example downloadReport_text :
  CampaignsScreen.downloadReport roster surveyThenCall fall
  = "Full Name,Outcome,Response,Timestamp,Student ID,Campaign ID,Campaign Name"
    +:+ newline
    +:+ "Ann,answered,Yes,1970-01-01T00:00:00.100Z,s1,c1,Fall".
Proof. vm_compute. reflexivity. Qed.

Example buildCloudRowsForCampaign_rows :
  buildCloudRowsForCampaign roster callAfterSurvey fall
  = [ {| full_name := "Ann"; cloud_outcome := "no_answer"; response := "Yes";
         timestamp := "1970-01-01T00:00:00.500Z"; student_id := "s1";
         campaign_id := "c1"; campaign_name := "Fall" |} ].
Proof. vm_compute. reflexivity. Qed.

(** * Further properties of the code *)

(** ** The storage slots of the campaigns *)

Lemma storageKey_inj a b : storageKey a = storageKey b -> a = b.
Proof.
  unfold storageKey. generalize KEY_PREFIX. intros s.
  induction s as [|ch s IH]; simpl; [done|]. intros [= H]. by apply IH.
Qed.

Lemma campaignId_backfill p id : campaignId (backfill p id) = campaignId p.
Proof. unfold backfill. by destruct (contacts p !! id). Qed.

Lemma campaignId_backfill_all ids p :
  campaignId (fold_left backfill ids p) = campaignId p.
Proof.
  revert p. induction ids as [|id ids IH]; intros p; simpl; [done|].
  by rewrite IH, campaignId_backfill.
Qed.

Lemma campaignId_clearSurveyResponseOn p id :
  campaignId (clearSurveyResponseOn p id) = campaignId p.
Proof. unfold clearSurveyResponseOn. by destruct (contacts p !! id). Qed.

Lemma continues_refl c : continues c c.
Proof. by repeat split. Qed.

Lemma continues_trans c1 c2 c3 :
  continues c1 c2 -> continues c2 c3 -> continues c1 c3.
Proof.
  intros (Hl & Hs & Ha) (Hl' & Hs' & Ha'). repeat split.
  - by etrans.
  - by etrans.
  - lia.
Qed.

Lemma history_kept_refl p : history_kept p p.
Proof. intros id c Hc. exists c. split; [done|apply continues_refl]. Qed.

Lemma history_kept_trans p1 p2 p3 :
  history_kept p1 p2 -> history_kept p2 p3 -> history_kept p1 p3.
Proof.
  intros H12 H23 id c Hc.
  destruct (H12 id c Hc) as (c2 & Hc2 & Hk2).
  destruct (H23 id c2 Hc2) as (c3 & Hc3 & Hk3).
  exists c3. split; [done|by eapply continues_trans].
Qed.

(** Writing, under [id], a contact that continues the one stored under
    [id] (if any) keeps the history of the snapshot. *)
Lemma history_kept_insert (cs : gmap string ContactProgress) p p' id c' :
  contacts p' = <[id := c']> (contacts p) ->
  (forall c, contacts p !! id = Some c -> continues c c') ->
  history_kept p p'.
Proof.
  intros Hcs Hcont i c Hc. rewrite Hcs.
  destruct (decide (id = i)) as [->|Hne].
  - exists c'. rewrite lookup_insert_eq. split; [done|by apply Hcont].
  - exists c. rewrite lookup_insert_ne by done. split; [done|apply continues_refl].
Qed.

Lemma continues_ensureLogs c : continues c (ensureLogs c).
Proof. by repeat split. Qed.

Lemma continues_logCall now oc c : continues c (logCall now oc c).
Proof.
  repeat split; simpl.
  - by apply prefix_app_r.
  - done.
  - lia.
Qed.

Lemma continues_logSurvey now answer c : continues c (logSurvey now answer c).
Proof.
  repeat split; simpl.
  - done.
  - by apply prefix_app_r.
  - lia.
Qed.

Lemma continues_clearMissed c : continues c (clearMissed c).
Proof. unfold clearMissed. case_decide; by repeat split. Qed.

Lemma continues_dropSurveyAnswer c : continues c (dropSurveyAnswer c).
Proof. by repeat split. Qed.

Lemma history_kept_backfill p id : history_kept p (backfill p id).
Proof.
  unfold backfill. destruct (contacts p !! id) as [c0|] eqn:Hc0;
    eapply (history_kept_insert (contacts p)); try reflexivity; simpl;
    intros c Hc; [|congruence].
  assert (c = c0) as -> by congruence. apply continues_ensureLogs.
Qed.

Lemma history_kept_backfill_all ids p :
  history_kept p (fold_left backfill ids p).
Proof.
  revert p. induction ids as [|id ids IH]; intros p; simpl.
  - apply history_kept_refl.
  - eapply history_kept_trans; [apply history_kept_backfill|apply IH].
Qed.

Lemma history_kept_recordOutcomeOn now p id oc :
  history_kept p (recordOutcomeOn now p id oc).
Proof.
  eapply (history_kept_insert (contacts p)); [apply contacts_recordOutcomeOn|].
  intros c Hc. rewrite Hc. simpl. apply continues_logCall.
Qed.

Lemma history_kept_recordSurveyResponseOn now p id answer :
  history_kept p (recordSurveyResponseOn now p id answer).
Proof.
  eapply (history_kept_insert (contacts p)); [reflexivity|].
  intros c Hc. rewrite Hc. simpl. apply continues_logSurvey.
Qed.

Lemma history_kept_clearMissedOutcomesOn p :
  history_kept p (clearMissedOutcomesOn p).
Proof.
  intros id c Hc. rewrite contacts_clearMissedOutcomesOn.
  exists (clearMissed c). rewrite lookup_fmap, Hc. simpl.
  split; [done|apply continues_clearMissed].
Qed.

Lemma history_kept_clearSurveyResponseOn p id :
  history_kept p (clearSurveyResponseOn p id).
Proof.
  unfold clearSurveyResponseOn. destruct (contacts p !! id) as [c0|] eqn:Hc0.
  - eapply (history_kept_insert (contacts p)); [reflexivity|].
    intros c Hc. assert (c = c0) as -> by congruence.
    apply continues_dropSurveyAnswer.
  - apply history_kept_refl.
Qed.

Ltac unfold_step Hraw :=
  unfold step, exec, loadOrInitProgress, recordOutcome, recordSurveyResponse,
    clearMissedOutcomes, clearSurveyResponse, saveProgress; simpl;
  rewrite Hraw; simpl.

Lemma step_has_shape st op : step_shape st op.
Proof.
  destruct op as [cid ids|now cid id oc|now cid id answer|cid|cid id|cid];
    try (destruct (st !! storageKey cid) as [raw|] eqn:Hraw).
  - eapply shape_written; [exact Hraw|apply campaignId_backfill_all
                           |apply history_kept_backfill_all|].
    right. by unfold_step Hraw.
  - eapply shape_fresh; [exact Hraw|]. by unfold_step Hraw.
  - eapply shape_written; [exact Hraw|apply (campaignId_recordOutcomeOn now _ id oc)
                           |apply history_kept_recordOutcomeOn|].
    left. unfold_step Hraw. by rewrite campaignId_recordOutcomeOn.
  - apply shape_same. by unfold_step Hraw.
  - eapply shape_written; [exact Hraw|
                           |apply (history_kept_recordSurveyResponseOn now _ id answer)|].
    + reflexivity.
    + left. by unfold_step Hraw.
  - apply shape_same. by unfold_step Hraw.
  - eapply shape_written; [exact Hraw|apply campaignId_clearMissedOutcomesOn
                           |apply history_kept_clearMissedOutcomesOn|].
    left. unfold_step Hraw. by rewrite campaignId_clearMissedOutcomesOn.
  - apply shape_same. by unfold_step Hraw.
  - eapply shape_written; [exact Hraw|apply (campaignId_clearSurveyResponseOn _ id)
                           |apply history_kept_clearSurveyResponseOn|].
    left. unfold_step Hraw. by rewrite campaignId_clearSurveyResponseOn.
  - apply shape_same. by unfold_step Hraw.
  - by apply shape_removed.
  - by apply shape_removed.
Qed.

Lemma step_keys_agree st op : keys_agree st -> keys_agree (step st op).
Proof.
  intros Hst.
  destruct (step_has_shape st op) as [->|_ -> |ids Hnone ->|raw p' Hraw Hid _ [->| ->]].
  - done.
  - by apply map_Forall_delete.
  - by apply map_Forall_insert_2.
  - apply map_Forall_insert_2; [by rewrite Hid|done].
  - apply map_Forall_insert_2; [|done].
    rewrite Hid. apply (Hst _ _ Hraw).
Qed.

Lemma run_keys_agree st ops : keys_agree st -> keys_agree (run st ops).
Proof.
  unfold run. revert st. induction ops as [|op ops IH]; intros st Hst; simpl.
  - done.
  - by apply IH, step_keys_agree.
Qed.

(** X1. The operations keep every snapshot under the storage key of its own
    campaign id: a store built from the empty storage, or from any storage
    with that property, has it after every sequence of calls. *)
Theorem keys_agree_invariant (st : Storage) (ops : list Op) :
  keys_agree st -> keys_agree (run st ops).
Proof. apply run_keys_agree. Qed.

(** Witness of [keys_agree_invariant]. *)
Lemma keys_agree_invariant_witness : keys_agree (run ∅ missedThenCleared).
Proof. apply keys_agree_invariant. apply map_Forall_empty. Defined.

Lemma step_other_campaign st op cid :
  keys_agree st -> opCampaign op <> cid ->
  step st op !! storageKey cid = st !! storageKey cid.
Proof.
  intros Hst Hne.
  assert (Hkey : storageKey (opCampaign op) <> storageKey cid).
  { intros Heq. by apply Hne, storageKey_inj. }
  destruct (step_has_shape st op) as [->|_ -> |ids Hnone ->|raw p' Hraw Hid _ [->| ->]].
  - done.
  - by rewrite lookup_delete_ne.
  - by rewrite lookup_insert_ne.
  - rewrite lookup_insert_ne; [done|].
    by rewrite <- (Hst _ _ Hraw).
  - by rewrite lookup_insert_ne.
Qed.

(** X2. In a store whose keys agree with the campaign ids, a call on one
    campaign leaves the stored snapshot of every other campaign as it was
    (present or absent); so does every sequence of calls on other
    campaigns. *)
Theorem other_campaigns_untouched (st : Storage) (ops : list Op) (cid : string) :
  keys_agree st ->
  Forall (fun op => opCampaign op <> cid) ops ->
  getProgress (run st ops) cid = getProgress st cid.
Proof.
  unfold getProgress, run. intros Hst Hops. revert st Hst.
  induction Hops as [|op ops Hop Hops IH]; intros st Hst; simpl; [done|].
  rewrite IH by by apply step_keys_agree. by apply step_other_campaign.
Qed.

(** Witness of [other_campaigns_untouched]: calls on [c1] do not create or
    change the progress of [c2]. *)
Lemma other_campaigns_untouched_witness :
  getProgress (run ∅ missedThenCleared) "c2" = getProgress ∅ "c2".
Proof.
  apply other_campaigns_untouched.
  - apply map_Forall_empty.
  - repeat constructor; discriminate.
Defined.

(** X3. The trails are append-only: as long as the progress of a campaign
    is not removed, every contact stored for it stays stored, its call log
    and its survey log only grow at the end, and its attempts never go
    down, whatever calls are made on this or any other campaign. *)
Theorem history_is_append_only
    (st : Storage) (ops : list Op) (cid : string) (p : CampaignProgress) :
  keys_agree st ->
  getProgress st cid = Some p ->
  Forall (fun op => op <> OpRemoveProgress cid) ops ->
  exists p', getProgress (run st ops) cid = Some p' /\ history_kept p p'.
Proof.
  unfold getProgress, run. intros Hst Hp Hops. revert st p Hst Hp.
  induction Hops as [|op ops Hop Hops IH]; intros st p Hst Hp; simpl.
  { exists p. split; [done|apply history_kept_refl]. }
  assert (Hstep : exists p1, step st op !! storageKey cid = Some p1
                             /\ history_kept p p1).
  { destruct (decide (opCampaign op = cid)) as [Hcid|Hcid].
    - destruct (step_has_shape st op)
        as [->|Hrm _|ids Hnone _|raw p' Hraw Hid Hkept [->| ->]].
      + exists p. split; [done|apply history_kept_refl].
      + rewrite Hcid in Hrm. done.
      + rewrite Hcid in Hnone. congruence.
      + rewrite Hcid in Hraw. assert (raw = p) as -> by congruence.
        exists p'. split; [|done].
        rewrite <- (Hst _ _ Hp). apply lookup_insert_eq.
      + rewrite Hcid in Hraw. assert (raw = p) as -> by congruence.
        exists p'. split; [|done]. rewrite Hcid. apply lookup_insert_eq.
    - exists p. split; [|apply history_kept_refl].
      by rewrite step_other_campaign. }
  destruct Hstep as (p1 & Hp1 & Hk1).
  destruct (IH (step st op) p1) as (p' & Hp' & Hk'); [by apply step_keys_agree|done|].
  exists p'. split; [done|by eapply history_kept_trans].
Qed.

(** Witness of [history_is_append_only]: the call log entry of [a] outlives
    [clearMissedOutcomes]. *)
Lemma history_is_append_only_witness :
  exists p',
    getProgress (run (run ∅ [OpLoadOrInit "c1" ["a"];
                             OpRecordOutcome 1000 "c1" "a" no_answer])
                   [OpClearMissedOutcomes "c1"; OpLoadOrInit "c1" ["a"; "b"]])
      "c1" = Some p'
    /\ history_kept
         (recordOutcomeOn 1000 (freshProgress "c1" ["a"]) "a" no_answer) p'.
Proof.
  apply history_is_append_only.
  - apply run_keys_agree, map_Forall_empty.
  - reflexivity.
  - repeat constructor; discriminate.
Defined.

(** ** Invariants of the contacts *)

(** A property of contacts that the six updates of a contact keep, for the
    clock readings allowed by [clock_ok], holds of every contact of every
    store that the operations build. *)
Section ContactInvariant.
Variable Q : ContactProgress -> Prop.
Variable clock_ok : Z -> Prop.
Hypothesis Q_zero : forall id, Q (zeroContact id).
Hypothesis Q_ensureLogs : forall c, Q c -> Q (ensureLogs c).
Hypothesis Q_logCall : forall now oc c, clock_ok now -> Q c -> Q (logCall now oc c).
Hypothesis Q_logSurvey :
  forall now answer c, clock_ok now -> Q c -> Q (logSurvey now answer c).
Hypothesis Q_clearMissed : forall c, Q c -> Q (clearMissed c).
Hypothesis Q_dropSurveyAnswer : forall c, Q c -> Q (dropSurveyAnswer c).

Lemma Q_default_zero p id :
  all_contacts Q p -> Q (default (zeroContact id) (contacts p !! id)).
Proof using Q_zero.
  intros Hp. destruct (contacts p !! id) as [c|] eqn:Hc; simpl; [|apply Q_zero].
  by apply (Hp _ _ Hc).
Qed.

Lemma contact_invariant_run st ops :
  Forall (op_clock_ok clock_ok) ops ->
  store_inv (all_contacts Q) st -> store_inv (all_contacts Q) (run st ops).
Proof using All.
  apply run_preserves.
  - intros cid ids id c Hc.
    rewrite (contacts_freshProgress_lookup _ _ _ _ Hc). apply Q_zero.
  - intros p id Hp. unfold backfill.
    destruct (contacts p !! id) as [c|] eqn:Hc; simpl;
      apply map_Forall_insert_2; auto.
    apply Q_ensureLogs, (Hp _ _ Hc).
  - intros now p id oc Hnow Hp. unfold all_contacts.
    rewrite contacts_recordOutcomeOn.
    apply map_Forall_insert_2; [|done].
    by apply Q_logCall, Q_default_zero.
  - intros now p id answer Hnow Hp. unfold all_contacts, recordSurveyResponseOn.
    simpl. apply map_Forall_insert_2; [|done].
    by apply Q_logSurvey, Q_default_zero.
  - intros p Hp. unfold all_contacts. rewrite contacts_clearMissedOutcomesOn.
    apply map_Forall_fmap. intros id c Hc. simpl.
    apply Q_clearMissed, (Hp _ _ Hc).
  - intros p id Hp. unfold clearSurveyResponseOn.
    destruct (contacts p !! id) as [c|] eqn:Hc; [|done].
    apply map_Forall_insert_2; [|done].
    apply Q_dropSurveyAnswer, (Hp _ _ Hc).
Qed.
End ContactInvariant.

Ltac bookkeeping_cases :=
  unfold bookkeeping, attempts_logged; simpl;
  try (intros (Ha & Ho & Hl & Hs));
  repeat split; intros; simpl in *;
  try done; try lia; try (by eexists);
  try (match goal with H : is_Some None |- _ => by destruct H end);
  try tauto.

Lemma bookkeeping_zero id : bookkeeping (zeroContact id).
Proof. bookkeeping_cases. Qed.

Lemma bookkeeping_ensureLogs c : bookkeeping c -> bookkeeping (ensureLogs c).
Proof. bookkeeping_cases. Qed.

Lemma bookkeeping_logCall now oc c : bookkeeping c -> bookkeeping (logCall now oc c).
Proof. bookkeeping_cases. rewrite length_app. simpl. lia. Qed.

Lemma bookkeeping_logSurvey now answer c :
  bookkeeping c -> bookkeeping (logSurvey now answer c).
Proof. bookkeeping_cases. by destruct (default [] (surveyLogs c)). Qed.

Lemma bookkeeping_clearMissed c : bookkeeping c -> bookkeeping (clearMissed c).
Proof. unfold clearMissed. case_decide; [|done]. bookkeeping_cases. Qed.

Lemma bookkeeping_dropSurveyAnswer c :
  bookkeeping c -> bookkeeping (dropSurveyAnswer c).
Proof. bookkeeping_cases. Qed.

(** X4. The bookkeeping of the contacts is an invariant of the store: in
    every store that the operations build, the attempts of a contact are
    the number of entries of its call log, an outcome or a time of last call
    is set only for a contact that has been called, and a survey answer is
    set only when the survey log has an entry. *)
Theorem bookkeeping_invariant (st : Storage) (ops : list Op) :
  store_inv (all_contacts bookkeeping) st ->
  store_inv (all_contacts bookkeeping) (run st ops).
Proof.
  apply (contact_invariant_run bookkeeping (fun _ => True));
    auto using bookkeeping_zero, bookkeeping_ensureLogs, bookkeeping_logCall,
      bookkeeping_logSurvey, bookkeeping_clearMissed,
      bookkeeping_dropSurveyAnswer, any_clock_ok.
Qed.

(** Witness of [bookkeeping_invariant]. *)
Lemma bookkeeping_invariant_witness :
  store_inv (all_contacts bookkeeping) (run ∅ missedThenCleared).
Proof. apply bookkeeping_invariant. apply map_Forall_empty. Defined.

(** ** Survey answers: record, read, clear *)

(** X5. On a stored snapshot, [recordSurveyResponse] followed by
    [getSurveyResponse] reads the answer back; [clearSurveyResponse] then
    makes [getSurveyResponse] answer none, while the entry of the answer
    stays the last one of the survey log. *)
Theorem survey_response_round_trip
    (now : Z) (st : Storage) (cid id answer : string) (raw : CampaignProgress) :
  getProgress st cid = Some raw -> campaignId raw = cid ->
  exists st1 p1 st2 p2,
    recordSurveyResponse now st cid id answer = Ok (st1, p1)
    /\ getSurveyResponse st1 cid id = Some answer
    /\ clearSurveyResponse st1 cid id = Ok (st2, p2)
    /\ getSurveyResponse st2 cid id = None
    /\ exists c, contacts p2 !! id = Some c
                 /\ lastSurvey c
                    = Some {| slog_at := now; slog_answer := answer |}.
Proof.
  unfold getProgress. intros Hraw Hid.
  eexists _, _, _, _. split.
  { unfold recordSurveyResponse. rewrite Hraw. reflexivity. }
  unfold saveProgress. simpl. rewrite Hid.
  split.
  { unfold getSurveyResponse. rewrite lookup_insert_eq. simpl.
    by rewrite lookup_insert_eq. }
  split.
  { unfold clearSurveyResponse. rewrite lookup_insert_eq. reflexivity. }
  unfold clearSurveyResponseOn, saveProgress. simpl.
  rewrite lookup_insert_eq. simpl. rewrite Hid. split.
  - unfold getSurveyResponse. rewrite lookup_insert_eq. simpl.
    by rewrite lookup_insert_eq.
  - eexists. split; [apply lookup_insert_eq|].
    unfold lastSurvey. simpl. apply last_snoc.
Qed.

(** Witness of [survey_response_round_trip]. *)
Lemma survey_response_round_trip_witness :
  exists st1 p1 st2 p2,
    recordSurveyResponse 50 (run ∅ [OpLoadOrInit "c1" ["s1"]]) "c1" "s1" "Yes"
    = Ok (st1, p1)
    /\ getSurveyResponse st1 "c1" "s1" = Some "Yes"
    /\ clearSurveyResponse st1 "c1" "s1" = Ok (st2, p2)
    /\ getSurveyResponse st2 "c1" "s1" = None
    /\ exists c, contacts p2 !! "s1" = Some c
                 /\ lastSurvey c = Some {| slog_at := 50; slog_answer := "Yes" |}.
Proof.
  apply (survey_response_round_trip 50 _ "c1" "s1" "Yes"
           (freshProgress "c1" ["s1"])); reflexivity.
Defined.

(** ** Clearing the missed outcomes *)






(** ** What [loadOrInitProgress] adds and what it keeps *)

Lemma same_contact_refl c : same_contact c c.
Proof. by left. Qed.

Lemma same_contact_trans c1 c2 c3 :
  same_contact c1 c2 -> same_contact c2 c3 -> same_contact c1 c3.
Proof. intros [->| ->] [->| ->]; (by left) || by right. Qed.

Lemma backfill_same_contact p id i c :
  contacts p !! i = Some c ->
  exists c', contacts (backfill p id) !! i = Some c' /\ same_contact c c'.
Proof.
  intros Hc. unfold backfill.
  destruct (contacts p !! id) as [c0|] eqn:Hc0; simpl.
  - destruct (decide (id = i)) as [->|Hne].
    + exists (ensureLogs c0). rewrite lookup_insert_eq. split; [done|].
      assert (c0 = c) as -> by congruence. by right.
    + exists c. rewrite lookup_insert_ne by done. split; [done|by left].
  - exists c. rewrite lookup_insert_ne; [|congruence]. split; [done|by left].
Qed.

Lemma backfill_all_same_contact ids p i c :
  contacts p !! i = Some c ->
  exists c', contacts (fold_left backfill ids p) !! i = Some c'
             /\ same_contact c c'.
Proof.
  revert p c. induction ids as [|id ids IH]; intros p c Hc; simpl.
  - exists c. split; [done|by left].
  - destruct (backfill_same_contact p id i c Hc) as (c1 & Hc1 & Hs1).
    destruct (IH _ _ Hc1) as (c2 & Hc2 & Hs2).
    exists c2. split; [done|]. by eapply same_contact_trans.
Qed.

Lemma backfill_new_contact p id i c :
  contacts (backfill p id) !! i = Some c ->
  contacts p !! i = None -> i = id /\ c = zeroContact id.
Proof.
  unfold backfill. destruct (contacts p !! id) as [c0|] eqn:Hc0; simpl;
    destruct (decide (id = i)) as [->|Hne];
    rewrite ?lookup_insert_eq, ?lookup_insert_ne by done; try congruence.
  by intros [= <-].
Qed.

Lemma backfill_all_new_contact ids p i c :
  contacts (fold_left backfill ids p) !! i = Some c ->
  contacts p !! i = None -> i ∈ ids /\ c = zeroContact i.
Proof.
  revert p. induction ids as [|id ids IH]; intros p; simpl; [congruence|].
  intros Hc Hnone.
  destruct (contacts (backfill p id) !! i) as [c1|] eqn:Hc1.
  - destruct (backfill_new_contact _ _ _ _ Hc1 Hnone) as [-> ->].
    split; [by left|].
    destruct (backfill_all_same_contact ids _ _ _ Hc1) as (c2 & Hc2 & Hs).
    assert (c2 = c) as -> by congruence. by destruct Hs as [->| ->].
  - destruct (IH _ Hc Hc1) as [Hin ->]. split; [by right|done].
Qed.

Lemma totals_backfill_all ids p :
  made (totals (fold_left backfill ids p)) = made (totals p)
  /\ answeredCount (totals (fold_left backfill ids p)) = answeredCount (totals p)
  /\ missedCount (totals (fold_left backfill ids p)) = missedCount (totals p).
Proof.
  revert p. induction ids as [|id ids IH]; intros p; simpl; [done|].
  destruct (IH (backfill p id)) as (-> & -> & ->).
  unfold backfill. by destruct (contacts p !! id).
Qed.

(** X7. After [loadOrInitProgress], the stored snapshot of the campaign is
    the one returned and it holds a contact for every id of the queue.
    When a snapshot was stored, each of its contacts is still there with
    the same outcome, attempts, times, answers and log entries (an absent
    log becomes an empty one), the only new contacts are zeroed contacts
    for ids of the queue, and the call totals are as they were. *)
Theorem loadOrInitProgress_covers_and_keeps
    (st : Storage) (cid : string) (queueIds : list string) :
  let r := loadOrInitProgress st cid queueIds in
  getProgress r.1 cid = Some r.2
  /\ (forall id, id ∈ queueIds -> is_Some (contacts r.2 !! id))
  /\ forall raw, getProgress st cid = Some raw ->
       (forall id c, contacts raw !! id = Some c ->
          exists c', contacts r.2 !! id = Some c' /\ same_contact c c')
       /\ (forall id c, contacts r.2 !! id = Some c ->
             contacts raw !! id = None ->
             id ∈ queueIds /\ c = zeroContact id)
       /\ made (totals r.2) = made (totals raw)
       /\ answeredCount (totals r.2) = answeredCount (totals raw)
       /\ missedCount (totals r.2) = missedCount (totals raw).
Proof.
  intros r. split; [apply loadOrInitProgress_stored|]. split.
  - intros id Hid.
    pose proof (loadOrInitProgress_settles st cid queueIds) as Hs.
    rewrite Forall_forall in Hs. apply list_elem_of_In in Hid.
    destruct (Hs id Hid) as (c & Hc & _). by exists c.
  - unfold getProgress. intros raw Hraw. subst r.
    unfold loadOrInitProgress. rewrite Hraw. simpl.
    split; [intros id c; apply backfill_all_same_contact|].
    split; [intros id c; apply backfill_all_new_contact|].
    apply totals_backfill_all.
Qed.

Lemma size_fold_zeroContacts ids (m : gmap string ContactProgress) :
  NoDup ids -> (forall i, i ∈ ids -> m !! i = None) ->
  size (fold_left (fun cs id => <[id := zeroContact id]> cs) ids m)
  = length ids + size m.
Proof.
  intros Hnd. revert m. induction Hnd as [|id ids Hid Hnd IH]; intros m Hm; simpl.
  - done.
  - rewrite IH.
    + rewrite map_size_insert_None; [lia|]. apply Hm. by left.
    + intros i Hi. rewrite lookup_insert_ne; [apply Hm; by right|].
      intros ->. done.
Qed.

Lemma total_ok_backfill_all ids p :
  total_ok p -> total_ok (fold_left backfill ids p).
Proof.
  revert p. induction ids as [|id ids IH]; intros p Hp; simpl; [done|].
  by apply IH, backfill_total_ok.
Qed.

(** X8. [loadOrInitProgress] returns a snapshot whose [totals.total] is the
    number of its contacts when the stored snapshot had that property, or,
    when nothing was stored, when no id occurs twice in the queue. *)
Theorem loadOrInitProgress_total
    (st : Storage) (cid : string) (queueIds : list string) :
  (forall raw, getProgress st cid = Some raw -> total_ok raw) ->
  (getProgress st cid = None -> NoDup queueIds) ->
  total_ok (loadOrInitProgress st cid queueIds).2.
Proof.
  unfold getProgress, loadOrInitProgress. intros Hsome Hnone.
  destruct (st !! storageKey cid) as [raw|]; simpl.
  - by apply total_ok_backfill_all, Hsome.
  - unfold total_ok, freshProgress. simpl.
    rewrite size_fold_zeroContacts; [by rewrite map_size_empty; lia|by apply Hnone|].
    intros i _. apply lookup_empty.
Qed.

(** Witness of [loadOrInitProgress_total]. *)
Lemma loadOrInitProgress_total_witness :
  total_ok (loadOrInitProgress ∅ "c1" ["a"; "b"]).2.
Proof.
  apply loadOrInitProgress_total.
  - intros raw Hraw. unfold getProgress in Hraw. by rewrite lookup_empty in Hraw.
  - intros _. apply NoDup_cons_2.
    + intros [?|Hb]%elem_of_cons; [done|by apply elem_of_nil in Hb].
    + apply NoDup_cons_2; [apply not_elem_of_nil|apply NoDup_nil_2].
Defined.

(** ** The navigator after a recorded outcome *)

Lemma first_match_some sel queue id :
  first_match sel queue (Some id) -> id ∈ queue /\ sel id.
Proof.
  intros (pre & post & -> & Hsel & _). split; [|done].
  apply elem_of_app. right. by left.
Qed.

Lemma first_match_none sel queue id :
  first_match sel queue None -> id ∈ queue -> ~ sel id.
Proof.
  simpl. intros Hall Hin. rewrite Forall_forall in Hall.
  apply Hall. by apply list_elem_of_In.
Qed.

Lemma pickNextId_wanted queueIds p strategy skipId :
  first_match (wanted p strategy skipId) queueIds
    (pickNextId queueIds (Some p) strategy skipId).
Proof.
  destruct strategy; simpl; [apply pickUnattempted_first|apply pickMissed_first].
Qed.

Lemma pickNextId_some queueIds p strategy skipId id :
  pickNextId queueIds (Some p) strategy skipId = Some id ->
  id ∈ queueIds /\ wanted p strategy skipId id.
Proof.
  intros Hpick. apply first_match_some. rewrite <- Hpick.
  apply pickNextId_wanted.
Qed.

Lemma pickNextId_none queueIds p strategy skipId id :
  pickNextId queueIds (Some p) strategy skipId = None ->
  id ∈ queueIds -> ~ wanted p strategy skipId id.
Proof.
  intros Hpick. apply first_match_none. rewrite <- Hpick.
  apply pickNextId_wanted.
Qed.

Lemma recordOutcomeOn_lookup now p id oc :
  contacts (recordOutcomeOn now p id oc) !! id
  = Some (logCall now oc (default (zeroContact id) (contacts p !! id))).
Proof. rewrite contacts_recordOutcomeOn. apply lookup_insert_eq. Qed.

(** X9. A contact whose outcome was just recorded is not presented again:
    the unattempted pass never returns its id, the missed pass never
    returns it after [answered], and never returns it after [no_answer]
    when it is the skipped id.  Without the skipped id, the missed pass on
    a queue that holds the id does return a contact after [no_answer]. *)
Theorem recorded_contact_not_presented_again
    (queueIds : list string) (p : CampaignProgress) (now : Z) (id : string)
    (skipId : option string) :
  (forall oc,
      pickNextId queueIds (Some (recordOutcomeOn now p id oc)) unattempted skipId
      <> Some id)
  /\ pickNextId queueIds (Some (recordOutcomeOn now p id answered)) missed skipId
     <> Some id
  /\ pickNextId queueIds (Some (recordOutcomeOn now p id no_answer)) missed (Some id)
     <> Some id
  /\ (id ∈ queueIds ->
      is_Some (pickNextId queueIds (Some (recordOutcomeOn now p id no_answer))
                 missed None)).
Proof.
  repeat split.
  - intros oc Hpick. apply pickNextId_some in Hpick as [_ [_ Hun]].
    rewrite recordOutcomeOn_lookup in Hun.
    destruct Hun as [?|(c & [= <-] & Ha)]; [done|]. simpl in Ha. lia.
  - intros Hpick. apply pickNextId_some in Hpick as [_ [_ (c & Hc & Ho)]].
    rewrite recordOutcomeOn_lookup in Hc. by injection Hc as <-.
  - intros Hpick. by apply pickNextId_some in Hpick as [_ [? _]].
  - intros Hin.
    destruct (pickNextId _ _ missed None) as [x|] eqn:Hpick; [by eexists|].
    exfalso. eapply pickNextId_none; [exact Hpick|exact Hin|].
    split; [done|]. eexists. split; [apply recordOutcomeOn_lookup|done].
Qed.

(** X10. In a snapshot with sound bookkeeping the two passes are disjoint:
    a contact that the missed pass returns is never returned by the
    unattempted pass, for any queues and skipped ids. *)
Theorem passes_are_disjoint
    (p : CampaignProgress) (queueIds queueIds' : list string)
    (skipId skipId' : option string) (id : string) :
  all_contacts bookkeeping p ->
  pickNextId queueIds (Some p) missed skipId = Some id ->
  pickNextId queueIds' (Some p) unattempted skipId' <> Some id.
Proof.
  intros Hbook Hm Hu.
  apply pickNextId_some in Hm as [_ [_ (c & Hc & Ho)]].
  apply pickNextId_some in Hu as [_ [_ [Hnone|(c' & Hc' & Ha)]]]; [congruence|].
  assert (c' = c) as -> by congruence.
  destruct (Hbook id c Hc) as (_ & Hcalled & _).
  assert (0 < attempts c) by (apply Hcalled; rewrite Ho; by eexists). lia.
Qed.

(** Witness of [passes_are_disjoint]. *)
Lemma passes_are_disjoint_witness :
  pickNextId ["a"; "b"]
    (Some (recordOutcomeOn 1000 (freshProgress "c1" ["a"; "b"]) "a" no_answer))
    unattempted None
  <> Some "a".
Proof.
  apply (passes_are_disjoint _ ["a"; "b"] ["a"; "b"] None None).
  - unfold all_contacts. rewrite contacts_recordOutcomeOn.
    apply map_Forall_insert_2.
    + apply bookkeeping_logCall.
      destruct (contacts _ !! "a") as [c|] eqn:Hc; simpl; [|apply bookkeeping_zero].
      rewrite (contacts_freshProgress_lookup _ _ _ _ Hc). apply bookkeeping_zero.
    + intros i c Hc. rewrite (contacts_freshProgress_lookup _ _ _ _ Hc).
      apply bookkeeping_zero.
  - vm_compute. reflexivity.
Defined.

(** ** The passes of a run *)

Lemma unattemptedIn_backfill p id i :
  unattemptedIn (backfill p id) i = unattemptedIn p i.
Proof.
  unfold unattemptedIn, backfill.
  destruct (contacts p !! id) as [c0|] eqn:Hc0; simpl;
    destruct (decide (id = i)) as [->|Hne];
    rewrite ?lookup_insert_eq, ?lookup_insert_ne by done; try done.
  - by rewrite Hc0.
  - by rewrite Hc0.
Qed.

Lemma missedIn_backfill p id i : missedIn (backfill p id) i = missedIn p i.
Proof.
  unfold missedIn, backfill.
  destruct (contacts p !! id) as [c0|] eqn:Hc0; simpl;
    destruct (decide (id = i)) as [->|Hne];
    rewrite ?lookup_insert_eq, ?lookup_insert_ne by done; try done.
  - by rewrite Hc0.
  - by rewrite Hc0.
Qed.

Lemma pendingIn_backfill_all strategy ids p i :
  pendingIn strategy (fold_left backfill ids p) i = pendingIn strategy p i.
Proof.
  revert p. induction ids as [|id ids IH]; intros p; simpl; [done|].
  rewrite IH. destruct strategy; simpl;
    [apply unattemptedIn_backfill|apply missedIn_backfill].
Qed.

Lemma pendingIn_recordOutcomeOn strategy now p id oc i :
  settles strategy oc ->
  pendingIn strategy (recordOutcomeOn now p id oc) i
  = if decide (i = id) then false else pendingIn strategy p i.
Proof.
  intros Hoc. destruct strategy; simpl; unfold unattemptedIn, missedIn;
    rewrite contacts_recordOutcomeOn; case_decide as Hi;
    try (by rewrite lookup_insert_ne);
    subst; rewrite lookup_insert_eq; simpl; apply bool_decide_eq_false_2.
  - lia.
  - simpl in Hoc. by rewrite Hoc.
Qed.

Lemma wanted_pendingIn p strategy skipId id :
  wanted p strategy skipId id -> pendingIn strategy p id = true.
Proof.
  destruct strategy; simpl; unfold unattemptedIn, missedIn.
  - intros [_ [->|(c & -> & Ha)]]; [done|]. by apply bool_decide_eq_true_2.
  - intros [_ (c & -> & Ho)]. by apply bool_decide_eq_true_2.
Qed.

Lemma pendingIn_wanted p strategy skipId id :
  skipId <> Some id -> pendingIn strategy p id = true ->
  wanted p strategy skipId id.
Proof.
  intros Hskip. destruct strategy; simpl; unfold unattemptedIn, missedIn;
    intros Hu; (split; [done|]);
    destruct (contacts p !! id) as [c|]; try done.
  - right. exists c. split; [done|]. by apply bool_decide_eq_true in Hu.
  - by left.
  - exists c. split; [done|]. by apply bool_decide_eq_true in Hu.
Qed.

Lemma filter_length_le (f g : string -> bool) l :
  (forall i, f i = true -> g i = true) ->
  length (List.filter f l) <= length (List.filter g l).
Proof.
  intros Hfg. induction l as [|x l IH]; simpl; [done|].
  destruct (f x) eqn:Hf.
  - rewrite (Hfg x Hf). simpl. lia.
  - destruct (g x); simpl; lia.
Qed.

Lemma filter_length_bound (f : string -> bool) l :
  length (List.filter f l) <= length l.
Proof. induction l as [|x l IH]; simpl; [done|]. destruct (f x); simpl; lia. Qed.

Lemma filter_length_lt (f g : string -> bool) l x :
  (forall i, f i = true -> g i = true) ->
  x ∈ l -> g x = true -> f x = false ->
  length (List.filter f l) < length (List.filter g l).
Proof.
  intros Hfg Hx Hgx Hfx. induction l as [|y l IH]; [by apply elem_of_nil in Hx|].
  simpl. apply elem_of_cons in Hx as [<-|Hx].
  - rewrite Hgx, Hfx. simpl.
    pose proof (filter_length_le f g l Hfg). lia.
  - specialize (IH Hx). destruct (f y) eqn:Hf.
    + rewrite (Hfg y Hf). simpl. lia.
    + destruct (g y); simpl; lia.
Qed.

(** [advance] leaves a pass state, provided the skipped id, if any, is not
    pending. *)
Lemma advance_pass_state strategy cid queueIds st rs skipId :
  keys_agree st -> passStrategy rs = strategy ->
  (forall j, skipId = Some j ->
     pendingIn strategy (loadOrInitProgress st cid queueIds).2 j = false) ->
  pass_state strategy cid queueIds (advance cid queueIds st rs strategy skipId)
    (loadOrInitProgress st cid queueIds).2.
Proof.
  intros Hst Hpass Hskip. unfold advance.
  pose proof (loadOrInitProgress_stored st cid queueIds) as Hstored.
  assert (Hkeys : keys_agree (loadOrInitProgress st cid queueIds).1).
  { apply (step_keys_agree st (OpLoadOrInit cid queueIds) Hst). }
  destruct (loadOrInitProgress st cid queueIds) as [st' fresh].
  cbn [fst snd] in *. unfold pass_state.
  cbn [fst snd run_mode currentId passStrategy].
  split; [done|]. split; [done|]. split; [done|].
  destruct (pickNextId queueIds (Some fresh) strategy skipId) as [id|] eqn:Hpick.
  - pose proof (pickNextId_some _ _ _ _ _ Hpick) as [Hin Hw].
    destruct (decide (id = EmptyString)) as [->|Hne].
    + left. split; [done|]. split; [done|]. intros Hno. done.
    + right. exists id. repeat split; try done.
      by eapply wanted_pendingIn.
  - left. split; [done|]. split; [done|]. intros _ id Hin.
    destruct (pendingIn strategy fresh id) eqn:Hu; [|done].
    exfalso. eapply pickNextId_none; [exact Hpick|exact Hin|].
    apply pendingIn_wanted; [|done].
    intros Hj. rewrite (Hskip id Hj) in Hu. done.
Qed.

Lemma onOutcomes_no_current cid queueIds s outcomes :
  truthy (currentId s.2) = false ->
  onOutcomes cid queueIds s outcomes = s.
Proof.
  intros Hfalsy. unfold onOutcomes.
  induction outcomes as [|[now oc] outcomes IH]; simpl; [done|].
  unfold onOutcome at 2. rewrite Hfalsy. by destruct s.
Qed.

(** A settling outcome on the current contact leaves a pass state with
    fewer pending ids in the queue. *)
Lemma onOutcome_pass_state strategy cid queueIds now s p oc id :
  settles strategy oc ->
  pass_state strategy cid queueIds s p ->
  currentId s.2 = Some id -> id <> EmptyString ->
  id ∈ queueIds -> pendingIn strategy p id = true ->
  exists p',
    pass_state strategy cid queueIds (onOutcome cid queueIds now s.1 s.2 oc) p'
    /\ length (List.filter (pendingIn strategy p') queueIds)
       < length (List.filter (pendingIn strategy p) queueIds).
Proof.
  destruct s as [st rs]. unfold pass_state at 1. simpl.
  intros Hoc (Hkeys & Hp & Hpass & _) Hcur Hne Hin Hun.
  assert (Hcid : campaignId p = cid).
  { apply storageKey_inj. symmetry. apply (Hkeys _ _ Hp). }
  unfold onOutcome. rewrite Hcur. simpl.
  rewrite bool_decide_eq_false_2 by done. simpl.
  unfold recordOutcome. rewrite Hp, Hpass.
  set (p1 := recordOutcomeOn now p id oc).
  set (st1 := saveProgress st p1).
  assert (Hst1 : st1 = step st (OpRecordOutcome now cid id oc)).
  { unfold step, exec, recordOutcome. by rewrite Hp. }
  assert (Hkeys1 : keys_agree st1) by (rewrite Hst1; by apply step_keys_agree).
  assert (Hp1 : st1 !! storageKey cid = Some p1).
  { unfold st1, saveProgress, p1. rewrite campaignId_recordOutcomeOn, Hcid.
    apply lookup_insert_eq. }
  assert (Hload : (loadOrInitProgress st1 cid queueIds).2
                  = fold_left backfill queueIds p1).
  { unfold loadOrInitProgress. by rewrite Hp1. }
  assert (Hpend : forall i,
             pendingIn strategy (loadOrInitProgress st1 cid queueIds).2 i
             = if decide (i = id) then false else pendingIn strategy p i).
  { intros i. rewrite Hload, pendingIn_backfill_all.
    by apply pendingIn_recordOutcomeOn. }
  exists (loadOrInitProgress st1 cid queueIds).2. split.
  - apply advance_pass_state; [done|done|].
    intros j Hj. rewrite Hpend.
    destruct strategy; [done|]. injection Hj as <-. by rewrite decide_True.
  - apply (filter_length_lt _ _ _ id); try done.
    + intros i. rewrite Hpend. by case_decide.
    + rewrite Hpend. by rewrite decide_True.
Qed.

Lemma onOutcomes_pass_state strategy cid queueIds outcomes s p :
  Forall (fun no => settles strategy no.2) outcomes ->
  pass_state strategy cid queueIds s p ->
  length (List.filter (pendingIn strategy p) queueIds) <= length outcomes ->
  exists p',
    pass_state strategy cid queueIds (onOutcomes cid queueIds s outcomes) p'
    /\ run_mode (onOutcomes cid queueIds s outcomes).2 = ModeSummary
    /\ truthy (currentId (onOutcomes cid queueIds s outcomes).2) = false.
Proof.
  intros Hocs. revert s p.
  induction Hocs as [|[now oc] outcomes Hoc Hocs IH]; intros s p Hs Hlen;
    pose proof Hs
      as (Hk & Hp & Hpass & [(Hm & Hf & Hall)|(id & Hc & Hne & Hin & Hu)]);
    try (rewrite onOutcomes_no_current by done; by exists p).
  - exfalso. simpl in Hlen.
    pose proof (filter_length_lt (fun _ => false) (pendingIn strategy p)
                  queueIds id) as Hlt.
    assert (0 < length (List.filter (pendingIn strategy p) queueIds)); [|lia].
    eapply Nat.le_lt_trans; [apply Nat.le_0_l|]. by apply Hlt.
  - change (onOutcomes cid queueIds s ((now, oc) :: outcomes))
      with (onOutcomes cid queueIds (onOutcome cid queueIds now s.1 s.2 oc)
              outcomes).
    destruct (onOutcome_pass_state strategy cid queueIds now s p oc id
                Hoc Hs Hc Hne Hin Hu) as (p' & Hs' & Hlt).
    apply (IH _ p' Hs'). simpl in Hlen. lia.
Qed.

(** The end of a pass, from its state after [advance]. *)
Lemma pass_ends strategy cid queueIds st rs outcomes :
  keys_agree st -> passStrategy rs = strategy ->
  Forall (fun no => settles strategy no.2) outcomes ->
  length queueIds <= length outcomes ->
  let s := onOutcomes cid queueIds
             (advance cid queueIds st rs strategy None) outcomes in
  run_mode s.2 = ModeSummary
  /\ truthy (currentId s.2) = false
  /\ (EmptyString ∉ queueIds ->
      exists p, getProgress s.1 cid = Some p
                /\ forall id, id ∈ queueIds -> pendingIn strategy p id = false).
Proof.
  intros Hst Hpass Hocs Hlen s.
  assert (Hstart : pass_state strategy cid queueIds
                     (advance cid queueIds st rs strategy None)
                     (loadOrInitProgress st cid queueIds).2).
  { by apply advance_pass_state. }
  destruct (onOutcomes_pass_state strategy cid queueIds outcomes _ _ Hocs Hstart)
    as (p' & Hs' & Hmode & Hfalsy).
  { etrans; [apply filter_length_bound|exact Hlen]. }
  fold s in Hs', Hmode, Hfalsy.
  split; [done|]. split; [done|]. intros Hno.
  destruct Hs' as (_ & Hp' & _ & [(_ & _ & Hall)|(id & Hc & Hne & _)]).
  - exists p'. split; [done|]. by apply Hall.
  - rewrite Hc in Hfalsy. simpl in Hfalsy.
    rewrite bool_decide_eq_false_2 in Hfalsy by done. done.
Qed.

(** X11. The first pass ends: in a store whose keys agree with the campaign
    ids, after [beginCalls] and as many outcomes as the queue has ids (or
    more), the screen shows the summary and has no current contact; and
    when no id of the queue is the empty string, the stored snapshot then
    holds, for every id of the queue, a contact with at least one attempt. *)
Theorem first_pass_ends_in_summary
    (cid : string) (queueIds : list string) (st : Storage) (rs : RunState)
    (outcomes : list (Z * CallOutcome)) :
  keys_agree st ->
  length queueIds <= length outcomes ->
  let s := onOutcomes cid queueIds (beginCalls cid queueIds st rs) outcomes in
  run_mode s.2 = ModeSummary
  /\ truthy (currentId s.2) = false
  /\ (EmptyString ∉ queueIds ->
      exists p, getProgress s.1 cid = Some p
                /\ forall id, id ∈ queueIds ->
                     exists c, contacts p !! id = Some c /\ 0 < attempts c).
Proof.
  intros Hst Hlen s.
  destruct (pass_ends unattempted cid queueIds st
              {| run_progress := run_progress rs; run_mode := ModeRunning;
                 currentId := currentId rs; passStrategy := unattempted |}
              outcomes Hst eq_refl) as (Hmode & Hfalsy & Hall); [|done|].
  { apply Forall_forall. by intros. }
  fold (beginCalls cid queueIds st rs) in Hmode, Hfalsy, Hall. fold s in Hmode, Hfalsy, Hall.
  split; [done|]. split; [done|]. intros Hno.
  destruct (Hall Hno) as (p & Hp & Hnone). exists p. split; [done|].
  intros id Hin. specialize (Hnone id Hin). simpl in Hnone.
  unfold unattemptedIn in Hnone.
  destruct (contacts p !! id) as [c|]; [|done].
  exists c. split; [done|]. apply bool_decide_eq_false in Hnone. lia.
Qed.

(** Witness of [first_pass_ends_in_summary]: two contacts, two outcomes. *)
Lemma first_pass_ends_in_summary_witness :
  run_mode
    (onOutcomes "c1" ["a"; "b"]
       (beginCalls "c1" ["a"; "b"] ∅
          {| run_progress := None; run_mode := ModeIdle;
             currentId := None; passStrategy := unattempted |})
       [(1000%Z, answered); (2000%Z, no_answer)]).2
  = ModeSummary.
Proof.
  apply (first_pass_ends_in_summary "c1" ["a"; "b"] ∅ _
           [(1000%Z, answered); (2000%Z, no_answer)]).
  - apply map_Forall_empty.
  - simpl. lia.
Defined.

(** X12. The missed pass ends when the contacts answer: in a store whose
    keys agree with the campaign ids, after [beginMissed] and as many
    [answered] outcomes as the queue has ids (or more), the screen shows
    the summary and has no current contact; and when no id of the queue is
    the empty string, no contact of the queue has outcome [no_answer] in
    the stored snapshot. *)
Theorem missed_pass_ends_when_answered
    (cid : string) (queueIds : list string) (st : Storage) (rs : RunState)
    (clocks : list Z) :
  keys_agree st ->
  length queueIds <= length clocks ->
  let s := onOutcomes cid queueIds (beginMissed cid queueIds st rs)
             ((fun now => (now, answered)) <$> clocks) in
  run_mode s.2 = ModeSummary
  /\ truthy (currentId s.2) = false
  /\ (EmptyString ∉ queueIds ->
      exists p, getProgress s.1 cid = Some p
                /\ forall id c, id ∈ queueIds -> contacts p !! id = Some c ->
                     outcome c <> Some no_answer).
Proof.
  intros Hst Hlen s.
  destruct (pass_ends missed cid queueIds st
              {| run_progress := run_progress rs; run_mode := ModeMissed;
                 currentId := currentId rs; passStrategy := missed |}
              ((fun now => (now, answered)) <$> clocks) Hst eq_refl)
    as (Hmode & Hfalsy & Hall).
  { apply Forall_fmap. apply Forall_forall. by intros. }
  { by rewrite length_fmap. }
  fold (beginMissed cid queueIds st rs) in Hmode, Hfalsy, Hall. fold s in Hmode, Hfalsy, Hall.
  split; [done|]. split; [done|]. intros Hno.
  destruct (Hall Hno) as (p & Hp & Hnone). exists p. split; [done|].
  intros id c Hin Hc Ho. specialize (Hnone id Hin). simpl in Hnone.
  unfold missedIn in Hnone. rewrite Hc in Hnone.
  by apply bool_decide_eq_false in Hnone.
Qed.

(** Witness of [missed_pass_ends_when_answered]: the missed contact [b]
    answers on the second pass. *)
Lemma missed_pass_ends_when_answered_witness :
  run_mode
    (onOutcomes "c1" ["a"; "b"]
       (beginMissed "c1" ["a"; "b"]
          (run ∅ [OpLoadOrInit "c1" ["a"; "b"];
                  OpRecordOutcome 1000 "c1" "a" answered;
                  OpRecordOutcome 2000 "c1" "b" no_answer])
          {| run_progress := None; run_mode := ModeSummary;
             currentId := None; passStrategy := unattempted |})
       ((fun now => (now, answered)) <$> [3000%Z; 4000%Z])).2
  = ModeSummary.
Proof.
  apply (missed_pass_ends_when_answered "c1" ["a"; "b"] _ _ [3000%Z; 4000%Z]).
  - apply run_keys_agree, map_Forall_empty.
  - simpl. lia.
Defined.

(** The missed pass alternates for ever between two contacts that never
    answer: after [no_answer] the skipped id lets the other one come up. *)
Example missed_pass_alternates :
  let st := run ∅ [OpLoadOrInit "c1" ["a"; "b"];
                   OpRecordOutcome 1000 "c1" "a" no_answer;
                   OpRecordOutcome 2000 "c1" "b" no_answer] in
  let rs := {| run_progress := None; run_mode := ModeSummary;
               currentId := None; passStrategy := unattempted |} in
  let s0 := beginMissed "c1" ["a"; "b"] st rs in
  let s1 := onOutcome "c1" ["a"; "b"] 3000 s0.1 s0.2 no_answer in
  let s2 := onOutcome "c1" ["a"; "b"] 4000 s1.1 s1.2 no_answer in
  (currentId s0.2, currentId s1.2, currentId s2.2)
  = (Some "a", Some "b", Some "a")
  /\ run_mode s2.2 = ModeMissed.
Proof. split; vm_compute; reflexivity. Qed.

(** ** Algebra of the record filter *)

Lemma prefix_refl s : String.prefix s s = true.
Proof.
  induction s as [|ch s IH]; simpl; [done|].
  destruct (ascii_dec ch ch) as [_|Hne]; [exact IH|by destruct Hne].
Qed.

Lemma includes_refl s : includes s s = true.
Proof.
  destruct s as [|ch s]; [done|].
  change (includes (String ch s) (String ch s))
    with (if String.prefix (String ch s) (String ch s) then true
          else includes s (String ch s)).
  by rewrite prefix_refl.
Qed.

Section FilterAlgebra.
Context `{rt : JsRuntime}.

Lemma matchesAll_app fs1 fs2 row :
  matchesAll (fs1 ++ fs2) row <-> matchesAll fs2 row /\ matchesAll fs1 row.
Proof. unfold matchesAll. rewrite Forall_app. tauto. Qed.

Lemma matchesAll_elem fs row :
  matchesAll fs row <-> forall f, f ∈ fs -> matchesCondition row f = true.
Proof.
  unfold matchesAll. rewrite Forall_forall.
  split; intros H f Hf; apply H; by apply list_elem_of_In.
Qed.

(** X13. Filtering composes as a conjunction: filtering with one filter
    set and then with another is filtering once with both, in either
    order; in particular a second filtering with the same set changes
    nothing, and a longer filter set gives a sublist. *)
Theorem applyFilters_compose (data : list Student)
    (fs1 fs2 : list FilterCondition) :
  applyFilters (applyFilters data fs1) fs2 = applyFilters data (fs1 ++ fs2)
  /\ applyFilters (applyFilters data fs1) fs2
     = applyFilters (applyFilters data fs2) fs1
  /\ applyFilters (applyFilters data fs1) fs1 = applyFilters data fs1
  /\ applyFilters data (fs1 ++ fs2) `sublist_of` applyFilters data fs1.
Proof.
  assert (Hc : applyFilters (applyFilters data fs1) fs2
               = applyFilters data (fs1 ++ fs2)).
  { rewrite !applyFilters_filter, list_filter_filter.
    apply list_filter_iff. intros row. by rewrite matchesAll_app. }
  split; [done|]. split; [|split].
  - rewrite !applyFilters_filter, !list_filter_filter.
    apply list_filter_iff. intros row. tauto.
  - rewrite !applyFilters_filter, !list_filter_filter.
    apply list_filter_iff. intros row. tauto.
  - rewrite <- Hc, (applyFilters_filter _ fs2). apply sublist_filter.
Qed.

(** X14. Only the set of conditions matters: two filter sets with the same
    conditions, in any order and with any repetitions, keep the same
    records. *)
Theorem applyFilters_same_conditions (data : list Student)
    (fs fs' : list FilterCondition) :
  (forall f, f ∈ fs <-> f ∈ fs') ->
  applyFilters data fs = applyFilters data fs'.
Proof.
  intros Hsame. rewrite !applyFilters_filter.
  apply list_filter_iff. intros row. rewrite !matchesAll_elem.
  split; intros H f Hf; apply H; by apply Hsame.
Qed.

(** X15. An equality condition is stronger than the substring condition
    on the same field and value: a record that matches [field = value]
    matches [field ~ value]. *)
Theorem equality_implies_substring (row : Student) (fld val : string) :
  matchesCondition row {| field := fld; op := OpEq; value := val |} = true ->
  matchesCondition row {| field := fld; op := OpLike; value := val |} = true.
Proof.
  unfold matchesCondition. simpl. intros Heq.
  apply bool_decide_eq_true in Heq. rewrite Heq. apply includes_refl.
Qed.

Lemma indexToString_inj i j : indexToString i = indexToString j -> i = j.
Proof.
  unfold indexToString. intros Heq.
  assert (Hnn : forall n, Nat.to_uint n <> Decimal.Nil).
  { intros n. rewrite <- (DecimalNat.Unsigned.of_to n) at 1.
    rewrite DecimalNat.Unsigned.to_of. apply DecimalFacts.unorm_nonnil. }
  apply DecimalNat.Unsigned.to_uint_inj.
  pose proof (NilZero.usu _ (Hnn i)) as Hi.
  pose proof (NilZero.usu _ (Hnn j)) as Hj.
  rewrite Heq in Hi. congruence.
Qed.

Lemma getStudentId_lacksId (s : Student) i :
  lacksId s -> getStudentId s i = indexToString i.
Proof. unfold getStudentId. by intros [->| ->]. Qed.

Lemma queueIdsOf_lookup (filtered : list Student) i :
  queueIdsOf filtered !! i = (fun s => getStudentId s i) <$> filtered !! i.
Proof. unfold queueIdsOf. apply list_lookup_imap. Qed.

(** X16. When no record of the filtered roster carries an [id], the ids
    derived from the positions are pairwise distinct, there is one per
    record, and the snapshot that [loadOrInitProgress] creates for them has
    [totals.total] equal to the number of its contacts and of the
    records. *)
Theorem position_ids_are_distinct (filtered : list Student) (cid : string) :
  Forall lacksId filtered ->
  NoDup (queueIdsOf filtered)
  /\ length (queueIdsOf filtered) = length filtered
  /\ total_ok (freshProgress cid (queueIdsOf filtered))
  /\ size (contacts (freshProgress cid (queueIdsOf filtered))) = length filtered.
Proof.
  intros Hlack.
  assert (Hnd : NoDup (queueIdsOf filtered)).
  { apply NoDup_alt. intros i j x. rewrite !queueIdsOf_lookup.
    destruct (filtered !! i) as [s|] eqn:Hs; simpl; [|done].
    destruct (filtered !! j) as [s'|] eqn:Hs'; simpl; [|done].
    rewrite Forall_forall in Hlack.
    rewrite !getStudentId_lacksId
      by (apply Hlack, list_elem_of_In; by eapply list_elem_of_lookup_2).
    intros [= <-] [= Heq]. symmetry. by apply indexToString_inj. }
  assert (Hlen : length (queueIdsOf filtered) = length filtered).
  { unfold queueIdsOf. apply length_imap. }
  assert (Hsize : size (contacts (freshProgress cid (queueIdsOf filtered)))
                  = length (queueIdsOf filtered)).
  { unfold freshProgress. simpl. rewrite size_fold_zeroContacts; [|done|].
    - rewrite map_size_empty. lia.
    - intros i _. apply lookup_empty. }
  split; [done|]. split; [done|]. split.
  - unfold total_ok. by rewrite Hsize.
  - by rewrite Hsize.
Qed.

End FilterAlgebra.

(** Witness of [applyFilters_same_conditions]. *)
Lemma applyFilters_same_conditions_witness :
  applyFilters roster
    [gpaAbove3; {| field := "first_name"; op := OpLike; value := "n" |}]
  = applyFilters roster
      [{| field := "first_name"; op := OpLike; value := "n" |};
       gpaAbove3; gpaAbove3].
Proof.
  apply applyFilters_same_conditions. intros f.
  rewrite !elem_of_cons, !elem_of_nil. tauto.
Defined.

(** Witness of [equality_implies_substring]. *)
Lemma equality_implies_substring_witness :
  matchesCondition bob {| field := "first_name"; op := OpLike; value := "BOB" |}
  = true.
Proof.
  apply equality_implies_substring. vm_compute. reflexivity.
Defined.

(** Witness of [position_ids_are_distinct]: [bob] and [cyd] carry no id. *)
Lemma position_ids_are_distinct_witness :
  NoDup (queueIdsOf [bob; cyd])
  /\ length (queueIdsOf [bob; cyd]) = length [bob; cyd]
  /\ total_ok (freshProgress "c1" (queueIdsOf [bob; cyd]))
  /\ size (contacts (freshProgress "c1" (queueIdsOf [bob; cyd])))
     = length [bob; cyd].
Proof.
  apply position_ids_are_distinct.
  repeat constructor; left; reflexivity.
Defined.

(** A record with an [id] that reads as a position collides with the record
    at that position. *)
Example id_collides_with_position :
  queueIdsOf [bob; {[ "id" := JString "0" ]}] = ["0"; "0"].
Proof. vm_compute. reflexivity. Qed.

(** ** The campaign list *)

Section ReplaceFirst.
Context {A : Type} (P : A -> Prop) `{!forall x, Decision (P x)}.

Lemma list_find_insert l i x y :
  list_find P l = Some (i, x) -> <[i := y]> l = replaceFirst P y l.
Proof using Type*.
  revert i. induction l as [|z l IH]; intros i; simpl; [done|].
  case_decide as Hz.
  - by intros [= <- <-].
  - destruct (list_find P l) as [[j w]|] eqn:Hfind; simpl; [|done].
    intros [= <- <-]. simpl. f_equal. by apply IH.
Qed.

Lemma list_find_replaceFirst_same l y :
  P y -> is_Some (list_find P l) ->
  snd <$> list_find P (replaceFirst P y l) = Some y.
Proof using Type*.
  intros Hy. induction l as [|z l IH]; simpl; [by intros [? ?]|].
  case_decide as Hz; simpl.
  - intros _. by rewrite decide_True.
  - rewrite decide_False by done.
    destruct (list_find P l) as [[j w]|] eqn:Hfind; simpl; [|by intros [? ?]].
    intros _. destruct (list_find P (replaceFirst P y l)) as [[j' w']|];
      simpl in *; [apply IH; by eexists|].
    specialize (IH (ltac:(by eexists))). done.
Qed.

Lemma list_find_replaceFirst_other (Q : A -> Prop) `{!forall x, Decision (Q x)}
    l y :
  ~ Q y -> (forall x, P x -> ~ Q x) ->
  snd <$> list_find Q (replaceFirst P y l) = snd <$> list_find Q l.
Proof using Type*.
  intros Hy Hpq. induction l as [|z l IH]; simpl; [done|].
  case_decide as Hz; simpl.
  - rewrite !decide_False by auto.
    by destruct (list_find Q l) as [[? ?]|].
  - case_decide; [done|].
    destruct (list_find Q (replaceFirst P y l)) as [[? ?]|],
             (list_find Q l) as [[? ?]|]; simpl in *; congruence.
Qed.

Lemma replaceFirst_ids {B} (f : A -> B) l y :
  (forall x, P x -> f x = f y) -> f <$> replaceFirst P y l = f <$> l.
Proof using Type*.
  intros Hf. induction l as [|z l IH]; simpl; [done|].
  case_decide as Hz; rewrite !fmap_cons;
    [f_equal; symmetry; by apply Hf|by rewrite IH].
Qed.
End ReplaceFirst.

Lemma findIndexById_none all id :
  findIndexById all id = None -> id ∉ entryId <$> all.
Proof.
  unfold findIndexById. intros Hnone Hin.
  apply list_elem_of_fmap in Hin as (c & -> & Hc).
  apply list_find_None in Hnone. rewrite Forall_forall in Hnone.
  apply (Hnone c); [by apply list_elem_of_In|done].
Qed.

(** X17. [saveCampaign] is an upsert: afterwards the campaign found under
    its id is the one saved, the campaign found under any other id is the
    one found before, and ids that were pairwise distinct still are. *)
Theorem saveCampaign_upserts (slot : ListSlot) (campaign : CampaignEntry) :
  findCampaign (saveCampaign slot campaign) (entryId campaign) = Some campaign
  /\ (forall id, id <> entryId campaign ->
        findCampaign (saveCampaign slot campaign) id = findCampaign slot id)
  /\ (NoDup (entryId <$> listCampaigns slot) ->
      NoDup (entryId <$> listCampaigns (saveCampaign slot campaign))).
Proof.
  unfold saveCampaign, findCampaign.
  destruct (findIndexById (listCampaigns slot) (entryId campaign))
    as [[idx prev]|] eqn:Hfind; simpl.
  - unfold findIndexById in *. rewrite (list_find_insert _ _ _ _ _ Hfind).
    split; [|split].
    + apply list_find_replaceFirst_same; [done|by eexists].
    + intros id Hid. apply list_find_replaceFirst_other; [by auto|].
      intros x Hx. congruence.
    + by rewrite (replaceFirst_ids _ entryId).
  - unfold findIndexById in *. simpl. rewrite decide_True by done.
    split; [done|]. split.
    + intros id Hid. rewrite decide_False by auto.
      by destruct (list_find (fun c => entryId c = id) (listCampaigns slot))
        as [[? ?]|].
    + intros Hnd. apply NoDup_cons_2; [|done]. by apply findIndexById_none.
Qed.

Lemma list_find_filter_other (all : list CampaignEntry) id id' :
  id' <> id ->
  snd <$> list_find (fun c => entryId c = id')
            (List.filter (fun c => negb (bool_decide (entryId c = id))) all)
  = snd <$> list_find (fun c => entryId c = id') all.
Proof.
  intros Hne. induction all as [|c all IH]; simpl; [done|].
  destruct (decide (entryId c = id)) as [Hc|Hc].
  - rewrite bool_decide_eq_true_2 by done. simpl.
    rewrite decide_False by congruence. rewrite IH.
    by destruct (list_find _ all) as [[? ?]|].
  - rewrite bool_decide_eq_false_2 by done. simpl.
    case_decide; [done|].
    destruct (list_find _ (List.filter _ all)) as [[? ?]|],
             (list_find _ all) as [[? ?]|]; simpl in *; congruence.
Qed.

Lemma deleteCampaign_removes_aux (slot : ListSlot) (id : string) :
  findCampaign (deleteCampaign slot id) id = None
  /\ (forall id', id' <> id ->
        findCampaign (deleteCampaign slot id) id' = findCampaign slot id').
Proof.
  unfold findCampaign, findIndexById, deleteCampaign. simpl.
  set (keep := fun c => negb (bool_decide (entryId c = id))).
  split.
  - destruct (list_find _ (List.filter keep (listCampaigns slot)))
      as [[i c]|] eqn:Hfind; [|done].
    apply list_find_Some in Hfind as (Hc & Hid & _).
    apply list_elem_of_lookup_2, list_elem_of_In, filter_In in Hc as [_ Hk].
    unfold keep in Hk. rewrite bool_decide_eq_true_2 in Hk by done. done.
  - intros id' Hne. by apply list_find_filter_other.
Qed.

(** X18. [deleteCampaign] removes every campaign of the id and nothing
    else: no campaign is found under the id afterwards, the campaign found
    under any other id is the one found before, the remaining campaigns
    keep their order, and deleting again changes nothing. *)
Theorem deleteCampaign_removes (slot : ListSlot) (id : string) :
  findCampaign (deleteCampaign slot id) id = None
  /\ (forall id', id' <> id ->
        findCampaign (deleteCampaign slot id) id' = findCampaign slot id')
  /\ listCampaigns (deleteCampaign slot id) `sublist_of` listCampaigns slot
  /\ deleteCampaign (deleteCampaign slot id) id = deleteCampaign slot id.
Proof.
  destruct (deleteCampaign_removes_aux slot id) as (Hgone & Hother).
  split; [done|]. split; [done|].
  unfold deleteCampaign. simpl.
  set (keep := fun c => negb (bool_decide (entryId c = id))).
  split.
  - induction (listCampaigns slot) as [|c all IH]; simpl; [constructor|].
    destruct (keep c); by constructor.
  - f_equal. induction (listCampaigns slot) as [|c all IH]; simpl; [done|].
    destruct (keep c) eqn:Hk; simpl; [|done]. by rewrite Hk, IH.
Qed.

Section SurveyTheorems.
Context `{rt : JsRuntime}.

Lemma nonEmpty_filter (l : list string) :
  List.filter (fun o => negb (bool_decide (o = EmptyString))) l
  = filter (fun o => o <> EmptyString) l.
Proof.
  induction l as [|o l IH]; [done|]. simpl. rewrite IH.
  rewrite filter_cons. case_decide as Ho.
  - by rewrite bool_decide_eq_false_2.
  - by rewrite bool_decide_eq_true_2.
Qed.

(** X19. [setCampaignSurvey] on a listed campaign stores a survey whose
    question is the trimmed question of the input, whose options are
    exactly the trimmed options of the input that are not empty, in the
    order of the input and as often as they occur there, whose creation
    time and active flag are the ones of the survey it replaces (the clock
    reading and true when there was none) and whose update time is the
    clock reading; [getCampaignSurvey] then returns it, and the campaign
    found under any other id is the one found before.  On an id that is
    not listed it returns null and leaves the slot as it was. *)
Theorem setCampaignSurvey_stores_clean_survey
    (now : Z) (slot : ListSlot) (campaignId : string) (input : SurveyInput) :
  match findCampaign slot campaignId with
  | None => setCampaignSurvey now slot campaignId input = (slot, None)
  | Some prev =>
      exists slot' updated s,
        setCampaignSurvey now slot campaignId input = (slot', Some updated)
        /\ getCampaignSurvey slot' campaignId = Some s
        /\ survey updated = Some s
        /\ core updated = core prev
        /\ reminders updated = reminders prev
        /\ question s = trim (input_question input)
        /\ options s
           = filter (fun o => o <> EmptyString) (trim <$> input_options input)
        /\ Forall (fun o => o <> EmptyString
                            /\ exists o', o' ∈ input_options input /\ o = trim o')
             (options s)
        /\ (forall o', o' ∈ input_options input -> trim o' <> EmptyString ->
              trim o' ∈ options s)
        /\ survey_createdAt s
           = default now (survey_createdAt <$> survey prev)
        /\ updatedAt s = now
        /\ active s = Some (default true (survey prev ≫= active))
        /\ forall id, id <> campaignId ->
             findCampaign slot' id = findCampaign slot id
  end.
Proof.
  unfold findCampaign, setCampaignSurvey.
  destruct (findIndexById (listCampaigns slot) campaignId)
    as [[idx prev]|] eqn:Hfind; simpl; [|done].
  eexists _, _, _. split; [reflexivity|].
  unfold findIndexById in *.
  pose proof Hfind as (_ & Hprev & _)%list_find_Some.
  rewrite (list_find_insert _ _ _ _ _ Hfind).
  unfold getCampaignSurvey, findCampaign, findIndexById. simpl.
  rewrite list_find_replaceFirst_same; [|done|by eexists]. simpl.
  split; [done|]. split; [done|]. split; [done|]. split; [done|].
  split; [done|]. split; [apply nonEmpty_filter|]. split.
  { apply Forall_forall. intros o Ho.
    apply filter_In in Ho as [Ho Hne]. split.
    - intros ->. by rewrite bool_decide_eq_true_2 in Hne.
    - apply in_map_iff in Ho as (o' & <- & Ho').
      exists o'. split; [by apply list_elem_of_In|done]. }
  split.
  { intros o' Ho' Hne. apply list_elem_of_In, filter_In. split.
    - apply in_map, list_elem_of_In, Ho'.
    - by rewrite bool_decide_eq_false_2. }
  split; [done|]. split; [done|]. split; [done|].
  intros id Hid. apply list_find_replaceFirst_other.
  - unfold entryId. simpl. fold (entryId prev). congruence.
  - intros x Hx. congruence.
Qed.

End SurveyTheorems.

(** X20. [clearCampaignSurvey] leaves the campaign without survey:
    [getCampaignSurvey] answers none afterwards, the campaign keeps its
    other fields, and the campaign found under any other id is the one
    found before; on an id that is not listed it returns null and leaves
    the slot as it was. *)
Theorem clearCampaignSurvey_clears (slot : ListSlot) (campaignId : string) :
  getCampaignSurvey (clearCampaignSurvey slot campaignId).1 campaignId = None
  /\ (forall id, id <> campaignId ->
        findCampaign (clearCampaignSurvey slot campaignId).1 id
        = findCampaign slot id)
  /\ match findCampaign slot campaignId with
     | None => clearCampaignSurvey slot campaignId = (slot, None)
     | Some prev =>
         exists updated,
           (clearCampaignSurvey slot campaignId).2 = Some updated
           /\ findCampaign (clearCampaignSurvey slot campaignId).1 campaignId
              = Some updated
           /\ core updated = core prev /\ reminders updated = reminders prev
           /\ survey updated = None
     end.
Proof.
  unfold getCampaignSurvey, findCampaign, clearCampaignSurvey.
  destruct (findIndexById (listCampaigns slot) campaignId)
    as [[idx prev]|] eqn:Hfind; simpl.
  - unfold findIndexById in *.
    pose proof Hfind as (_ & Hprev & _)%list_find_Some.
    destruct (survey prev) as [s|] eqn:Hs; simpl.
    + rewrite (list_find_insert _ _ _ _ _ Hfind).
      rewrite list_find_replaceFirst_same; [|done|by eexists]. simpl.
      split; [done|]. split.
      * intros id Hid. apply list_find_replaceFirst_other.
        -- unfold entryId. simpl. fold (entryId prev). congruence.
        -- intros x Hx. congruence.
      * by eexists.
    + rewrite Hfind. simpl. split; [done|]. split; [done|].
      exists prev. by repeat split.
  - rewrite Hfind. simpl. done.
Qed.

(** X21. Deleting a campaign from the list screen removes the campaign and
    its progress and nothing else: the campaign is no longer found and has
    no progress, and every other campaign is found as before with its
    progress as it was. *)
Theorem performDelete_cascades (slot : ListSlot) (st : Storage) (id : string) :
  let r := performDelete slot st id in
  findCampaign r.1 id = None
  /\ getProgress r.2 id = None
  /\ forall id', id' <> id ->
       findCampaign r.1 id' = findCampaign slot id'
       /\ getProgress r.2 id' = getProgress st id'.
Proof.
  simpl. destruct (deleteCampaign_removes_aux slot id) as (Hgone & Hother).
  split; [done|]. split.
  - unfold getProgress, removeProgress. apply lookup_delete_eq.
  - intros id' Hne. split; [by apply Hother|].
    unfold getProgress, removeProgress. apply lookup_delete_ne.
    intros Heq. by apply Hne, storageKey_inj.
Qed.

(** ** CSV cells *)

Lemma doubleQuotes_closed_inj s1 s2 :
  doubleQuotes s1 +:+ String dquote EmptyString
  = doubleQuotes s2 +:+ String dquote EmptyString ->
  s1 = s2.
Proof.
  revert s2. induction s1 as [|c1 r1 IH]; intros [|c2 r2]; simpl; try done.
  - destruct (Ascii.eqb_spec c2 dquote) as [->|Hne]; simpl;
      intros H; simplify_eq.
  - destruct (Ascii.eqb_spec c1 dquote) as [->|Hne]; simpl;
      intros H; simplify_eq.
  - destruct (Ascii.eqb_spec c1 dquote) as [->|Hne1],
             (Ascii.eqb_spec c2 dquote) as [->|Hne2]; simpl;
      intros H; simplify_eq; try congruence; f_equal; by apply IH.
Qed.

Lemma needsQuotes_head s rest :
  s = String dquote rest -> needsQuotes s = true.
Proof. by intros ->. Qed.

Lemma quoted_inj (s1 s2 : string) : quoted s1 = quoted s2 -> s1 = s2.
Proof.
  unfold quoted.
  destruct (needsQuotes s1) eqn:H1, (needsQuotes s2) eqn:H2.
  - intros [= H]. by apply doubleQuotes_closed_inj.
  - intros H. symmetry in H. apply needsQuotes_head in H. congruence.
  - intros H. apply needsQuotes_head in H. congruence.
  - done.
Qed.

Lemma csvField_quoted (v : option string) :
  csvField v = quoted (default EmptyString v).
Proof. by destruct v. Qed.

(** X22. The CSV escaping is injective: [csvEscape] gives two different
    strings different cells, and [csvField] gives two values the same cell
    only when they are the same string, where null counts as the empty
    string (both give the empty cell). *)
Theorem quoted_injective (s1 s2 : string) (v1 v2 : option string) :
  (CampaignsScreen.csvEscape s1 = CampaignsScreen.csvEscape s2 <-> s1 = s2)
  /\ (csvField v1 = csvField v2
      <-> default EmptyString v1 = default EmptyString v2)
  /\ csvField None = csvField (Some EmptyString).
Proof.
  split; [|split; [|done]].
  - split; [apply quoted_inj|by intros ->].
  - rewrite !csvField_quoted. split; [apply quoted_inj|by intros ->].
Qed.

(** A value with a comma and the same value already between double quotes
    give different cells. *)
Example quoted_cells_differ :
  CampaignsScreen.csvEscape "a,b"
  <> CampaignsScreen.csvEscape (CampaignsScreen.csvEscape "a,b").
Proof. intros H. by apply quoted_inj in H. Qed.

Lemma scanCell_plain s :
  needsQuotes s = false -> scanCell false s = Some false.
Proof.
  induction s as [|ch s IH]; simpl; [done|].
  intros H. apply orb_false_iff in H as [H Hs].
  apply orb_false_iff in H as [H Hnl]. apply orb_false_iff in H as [Hq Hc].
  rewrite Hq, Hc, Hnl. simpl. by apply IH.
Qed.

Lemma scanCell_doubled s rest :
  scanCell true (doubleQuotes s +:+ rest) = scanCell true rest.
Proof.
  induction s as [|ch s IH]; simpl; [done|].
  destruct (Ascii.eqb ch dquote) eqn:Hq; simpl.
  - apply IH.
  - rewrite ?Hq, ?andb_false_r. apply IH.
Qed.

(** X23. In a cell made by the CSV escaping, a comma or a line feed occurs
    only between double quotes, and the double quotes are balanced: a line
    of cells joined by commas splits back into its cells. *)
Theorem quoted_hides_separators (s : string) :
  scanCell false (CampaignsScreen.csvEscape s) = Some false
  /\ scanCell false (csvField (Some s)) = Some false.
Proof.
  assert (H : scanCell false (quoted s) = Some false).
  { unfold quoted. destruct (needsQuotes s) eqn:Hn.
    - simpl. by rewrite scanCell_doubled.
    - by apply scanCell_plain. }
  by split.
Qed.

(** ** Paths of the exported files *)

Lemma endsWithSlash_app_slash base : endsWithSlash (base +:+ "/") = true.
Proof.
  induction base as [|ch base IH]; simpl; [done|].
  rewrite IH. by destruct (base +:+ "/").
Qed.

Lemma app_slash_nonempty base : base +:+ "/" <> EmptyString.
Proof. by destruct base. Qed.

Lemma string_app_assoc (a b c : string) : (a +:+ b) +:+ c = a +:+ (b +:+ c).
Proof.
  induction a as [|ch a IH]; [done|].
  change (String ch ((a +:+ b) +:+ c) = String ch (a +:+ (b +:+ c))).
  by f_equal.
Qed.

(** X24. [joinPath] puts exactly one slash between a base directory and
    the file name, whether or not the base ends with a slash: a base and
    the same base followed by a slash give the same path; an empty base
    gives the file name alone. *)
Theorem joinPath_one_slash (base fileName : string) :
  base <> EmptyString -> endsWithSlash base = false ->
  joinPath base fileName = base +:+ "/" +:+ fileName
  /\ joinPath (base +:+ "/") fileName = joinPath base fileName
  /\ joinPath EmptyString fileName = fileName.
Proof.
  intros Hne Hslash. unfold joinPath.
  rewrite (decide_False (P := base = EmptyString)) by done.
  rewrite (decide_False (P := base +:+ "/" = EmptyString))
    by apply app_slash_nonempty.
  rewrite Hslash, endsWithSlash_app_slash. simpl.
  split; [done|]. split; [|done]. by rewrite string_app_assoc.
Qed.

(** Witness of [joinPath_one_slash]. *)
Lemma joinPath_one_slash_witness :
  joinPath "docs" "report.csv" = "docs" +:+ "/" +:+ "report.csv"
  /\ joinPath ("docs" +:+ "/") "report.csv" = joinPath "docs" "report.csv"
  /\ joinPath EmptyString "report.csv" = "report.csv".
Proof. apply joinPath_one_slash; [discriminate|reflexivity]. Defined.

(** ** The summary block *)

Section CountingAll.
Context (P : ContactProgress -> Prop) `{!forall c, Decision (P c)}.

Lemma countWhere_le cs : countWhere P cs <= size cs.
Proof using Type*.
  induction cs as [|i c m Hi IH] using map_ind.
  - by rewrite countWhere_empty.
  - rewrite countWhere_insert_fresh, map_size_insert_None by done.
    case_decide; lia.
Qed.

Lemma countWhere_all cs :
  countWhere P cs = size cs <-> map_Forall (fun _ c => P c) cs.
Proof using Type*.
  induction cs as [|i c m Hi IH] using map_ind.
  - rewrite countWhere_empty, map_size_empty. split; [|done].
    intros _. apply map_Forall_empty.
  - rewrite countWhere_insert_fresh, map_size_insert_None by done.
    rewrite map_Forall_insert by done.
    pose proof (countWhere_le m). case_decide; split.
    + intros H'. split; [done|]. apply IH. lia.
    + intros [_ H']. apply IH in H'. lia.
    + intros H'. lia.
    + by intros [? _].
Qed.

Lemma countWhere_zero cs :
  countWhere P cs = 0 <-> map_Forall (fun _ c => ~ P c) cs.
Proof using Type*.
  split; [|apply countWhere_nobody].
  unfold countWhere. intros H0. apply map_size_empty_iff in H0.
  intros i c Hc. by apply (map_empty_filter_1 _ _ H0 i c).
Qed.
End CountingAll.

(** X25. On a snapshot whose totals agree with its contacts, the summary
    block reports that all is done exactly when every contact of the
    snapshot has outcome [answered]. *)
Theorem allDone_iff_all_answered (p : CampaignProgress) :
  totals_ok p -> total_ok p ->
  allDone (totals p) = true
  <-> map_Forall (fun _ c => outcome c = Some answered) (contacts p).
Proof.
  intros (Hm & Ha & Hmi & Hsum) Ht. unfold allDone, total_ok in *.
  rewrite andb_true_iff, !bool_decide_eq_true.
  rewrite Hmi, Hm, Ht, countWhere_zero, countWhere_all.
  split.
  - intros [Hno Hall] i c Hc.
    destruct (Hall i c Hc) as [[] Hoc]; [done|].
    by destruct (Hno i c Hc).
  - intros Hall. split; intros i c Hc; rewrite (Hall i c Hc); [done|by eexists].
Qed.

(** Witness of [allDone_iff_all_answered]. *)
Lemma allDone_iff_all_answered_witness :
  allDone (totals (recordOutcomeOn 1000 (freshProgress "c1" ["a"]) "a" answered))
  = true
  <-> map_Forall (fun _ c => outcome c = Some answered)
        (contacts (recordOutcomeOn 1000 (freshProgress "c1" ["a"]) "a" answered)).
Proof.
  apply allDone_iff_all_answered.
  - apply recordOutcomeOn_totals_ok.
  - apply recordOutcomeOn_total_known.
    + vm_compute. by eexists.
    + vm_compute. reflexivity.
Defined.

(** ** The two reports side by side *)

Section ReportsAgree.
Context `{rt : JsRuntime}.

(** X26. The summary report and the cloud rows describe the same contacts:
    both have one row per filtered record, in the order of the records, and
    the rows of a record agree on the outcome, the response, the student
    id, the campaign id and the campaign name; they also agree on the
    timestamp when the contact has no survey log entry and its timestamps
    are positive. *)
Theorem reports_agree (students : list Student) (st : Storage) (c : Campaign) :
  let filtered := applyFilters students (filters c) in
  let prog := getProgress st (camp_id c) in
  length (CampaignsScreen.reportRows students prog c) = length filtered
  /\ length (buildCloudRowsForCampaign students st c) = length filtered
  /\ forall idx student, filtered !! idx = Some student ->
       exists row crow,
         CampaignsScreen.reportRows students prog c !! idx = Some row
         /\ buildCloudRowsForCampaign students st c !! idx = Some crow
         /\ row !! "Outcome" = Some (cloud_outcome crow)
         /\ row !! "Response" = Some (response crow)
         /\ row !! "Student ID" = Some (student_id crow)
         /\ row !! "Campaign ID" = Some (campaign_id crow)
         /\ row !! "Campaign Name" = Some (campaign_name crow)
         /\ let cp := prog ≫= fun p => contacts p !! getStudentId student idx in
            (positive_times cp -> default [] (cp ≫= surveyLogs) = [] ->
             row !! "Timestamp" = Some (timestamp crow)).
Proof.
  intros filtered prog.
  unfold CampaignsScreen.reportRows, buildCloudRowsForCampaign.
  fold filtered. fold prog. rewrite !length_imap.
  split; [done|]. split; [done|]. intros idx student Hidx.
  eexists _, _. rewrite !list_lookup_imap, Hidx. simpl.
  split; [reflexivity|]. split; [reflexivity|].
  repeat (split; [done|]).
  intros Hpos Hnil. rewrite reportRow_timestamp. f_equal.
  change (timestamp (cloudRow c prog idx student))
    with (cloudTimestamp
            (prog ≫= fun p => contacts p !! getStudentId student idx)).
  rewrite timestampCell_spec, cloudTimestamp_spec by done.
  unfold surveyFirst. rewrite Hnil. f_equal.
  unfold nonEmptyAnswerTime.
  destruct (prog ≫= _) as [cp|]; simpl in *; [|done].
  destruct (surveyAnswer cp) as [a|]; simpl; [|by destruct (lastCalledAt cp)].
  case_decide; [by destruct (lastCalledAt cp)|].
  destruct (surveyLogs cp) as [l|]; simpl in *; [|by destruct (lastCalledAt cp)].
  subst l. by destruct (lastCalledAt cp).
Qed.

End ReportsAgree.

(** ** Readers of the survey answers *)

(** X27. [getAllSurveyResponses] lists exactly the contacts for which
    [getSurveyResponse] returns an answer that is not empty, with that
    answer. *)
Theorem getAllSurveyResponses_agrees (st : Storage) (cid id a : string) :
  getAllSurveyResponses st cid !! id = Some a
  <-> getSurveyResponse st cid id = Some a /\ a <> EmptyString.
Proof.
  unfold getAllSurveyResponses, getSurveyResponse.
  destruct (st !! storageKey cid) as [p|]; [|by rewrite lookup_empty; split; [|intros [? _]]].
  rewrite lookup_omap. destruct (contacts p !! id) as [cp|]; simpl;
    [|by split; [|intros [? _]]].
  destruct (surveyAnswer cp) as [a'|]; [|by split; [|intros [? _]]].
  case_decide as He; split.
  - done.
  - intros [[= ->] Hne]. done.
  - intros [= ->]. done.
  - by intros [[= ->] _].
Qed.

(** ** Editing a campaign *)

Lemma filter_out_NoDup (l : list string) x :
  NoDup l -> NoDup (List.filter (fun d => negb (bool_decide (d = x))) l).
Proof.
  induction 1 as [|y l Hy Hnd IH]; simpl; [constructor|].
  destruct (negb (bool_decide (y = x))); [|done].
  apply NoDup_cons_2; [|done].
  intros Hin. apply list_elem_of_In, filter_In in Hin as [Hin _].
  by apply Hy, list_elem_of_In.
Qed.

Lemma filter_out_elem (l : list string) x d :
  d ∈ List.filter (fun d => negb (bool_decide (d = x))) l <-> d ∈ l /\ d <> x.
Proof.
  rewrite !list_elem_of_In, filter_In, negb_true_iff, bool_decide_eq_false.
  done.
Qed.

(** X28. [toggleDate] toggles the membership of the date and of no other
    date, and keeps a selection without repetition free of repetitions. *)
Theorem toggleDate_toggles (prev : list string) (iso : string) :
  (iso ∈ toggleDate prev iso <-> iso ∉ prev)
  /\ (forall d, d <> iso -> d ∈ toggleDate prev iso <-> d ∈ prev)
  /\ (NoDup prev -> NoDup (toggleDate prev iso)).
Proof.
  unfold toggleDate. case_decide as Hin.
  - split; [|split].
    + rewrite filter_out_elem. split; [by intros [_ ?]|done].
    + intros d Hd. rewrite filter_out_elem. split; [by intros [? _]|done].
    + apply filter_out_NoDup.
  - split; [|split].
    + split; [done|]. intros _. apply elem_of_app. right.
      by apply list_elem_of_singleton.
    + intros d Hd. rewrite elem_of_app, list_elem_of_singleton.
      split; [by intros [?|?]|by left].
    + intros Hnd. apply list.NoDup_app. split; [done|].
      split; [|apply list.NoDup_singleton].
      intros x Hx Hx'%list_elem_of_singleton. by subst.
Qed.

Section OptionTheorems.
Context `{rt : JsRuntime}.

Lemma clean_options_default : clean_options DEFAULT_OPTIONS.
Proof. split; by apply (bool_decide_unpack _). Qed.

Lemma clean_options_edit options e :
  clean_options options -> clean_options (applyOptionEdit options e).
Proof.
  intros [Hnd Hne]. destruct e as [newOption|label|]; simpl.
  - unfold addOption. repeat case_decide; try done. split.
    + apply list.NoDup_app. repeat split; [done| |apply list.NoDup_singleton].
      intros x Hx Hx'%list_elem_of_singleton. by subst.
    + intros [?|Hx%list_elem_of_singleton]%elem_of_app; [done|]. done.
  - unfold removeOption. split; [by apply filter_out_NoDup|].
    rewrite filter_out_elem. by intros [? _].
  - apply clean_options_default.
Qed.

(** X29. Whatever options the operator adds, removes or resets, starting
    from the default options, the option list never holds an empty option
    and never holds an option twice. *)
Theorem options_stay_clean (edits : list OptionEdit) :
  clean_options (fold_left applyOptionEdit edits DEFAULT_OPTIONS).
Proof.
  generalize clean_options_default. generalize DEFAULT_OPTIONS.
  induction edits as [|e edits IH]; intros options Hc; simpl; [done|].
  by apply IH, clean_options_edit.
Qed.

End OptionTheorems.
